(** * site3d: angle helpers and camera rotation

    A shallow embedding of the angle utilities and of the camera / model
    rotation methods of [src/site3d.js], with the properties the specification
    states about them.

    Numbers.  A JavaScript [Number] is read as a real number: [+], [-], [*],
    [/], [Math.abs], [Math.cos], [Math.sin] and [Math.PI] are the operations
    of [R], comparisons are the decidable comparisons of [R], and the
    remainder operator [%] is the truncated remainder of ECMAScript
    ([Number::remainder]).  Rounding, NaN and the infinities are outside this
    reading: the quantified statements are about finite angles and exact
    arithmetic.  The static members are also given on binary64 ([Binary64]),
    where the scenarios and counterexamples are evaluated on doubles. *)

From Stdlib Require Import Reals Lra Lia ZArith String List Bool Floats.
Import ListNotations.

Local Open Scope R_scope.

(** ** The arithmetic of [Number] used by the source *)

Module JsNumber.

(** Truncation toward zero: the integer [q] of ECMAScript's remainder,
    "negative iff the operands have opposite sign and whose magnitude is as
    large as possible without exceeding the magnitude of the quotient". *)
Definition trunc (r : R) : Z :=
  if Rle_dec 0 r then Int_part r else (- Int_part (- r))%Z.

(** [n % d]. *)
Definition rem (n d : R) : R := n - d * IZR (trunc (n / d)).

(** [a == b] on numbers. *)
Definition eqb (a b : R) : bool := if Req_dec_T a b then true else false.

(** [a > b] on numbers. *)
Definition gtb (a b : R) : bool := if Rgt_dec a b then true else false.

End JsNumber.

Infix "%%" := JsNumber.rem (at level 40, left associativity) : R_scope.

(** ** The same static members on binary64

    The quantified statements are about the real-number reading above.
    [Binary64] repeats the static members on the doubles a JavaScript engine
    computes with, so that the scenarios and the counterexamples can also be
    evaluated on the very numbers the source produces.  Addition, subtraction,
    multiplication, division, [Math.abs] and the comparisons are the IEEE 754
    operations of [PrimFloat]; the remainder is exact, as ECMAScript and
    IEEE 754 require. *)

Module Binary64.

Local Open Scope float_scope.

(** [Math.PI], the double nearest to π. *)
Definition PI : float := 0x1.921fb54442d18p+1.

(** [n % d]: NaN when [n] is infinite or [d] is zero, [n] when [n] is zero or
    [d] is infinite, and otherwise the exact remainder of the truncated
    division, with the sign of [n]. *)
Definition rem (n d : float) : float :=
  match Prim2SF n, Prim2SF d with
  | S754_nan, _ | _, S754_nan | S754_infinity _, _ | _, S754_zero _ => nan
  | S754_zero _, _ | _, S754_infinity _ => n
  | S754_finite sn mn en, S754_finite _ md ed =>
      let e := Z.min en ed in
      let r := Z.rem (Z.pos mn * 2 ^ (en - e)) (Z.pos md * 2 ^ (ed - e)) in
      let a := Z.ldexp (of_uint63 (Uint63.of_Z r)) e in
      if sn then - a else a
  end.

Definition TwoPI : float := 2 * PI.
Definition PI2 : float := PI / 2.

Definition normalizeRad (angle : float) : float :=
  if abs angle =? TwoPI then angle else rem angle TwoPI.

Definition minRotationAngle (start end_ : float) : float :=
  if PI <? abs (start - end_)
  then end_ + (if 0 <? start then TwoPI else - TwoPI)
  else end_.

Definition normalizeDeg (angle : float) : float :=
  if abs angle =? 360 then angle else rem angle 360.

Definition toRad (angle : float) : float := normalizeDeg angle * (PI / 180).

Definition toDeg (angle : float) : float := normalizeRad angle * (180 / PI).

End Binary64.

(** ** The rendering engine, as far as the source calls it

    [Vector3], [Object3D] and their methods belong to the rendering engine the
    library wraps, not to this repository.  A vector is a record of three
    numbers.  An object has a position and an orientation; what an orientation
    is, and what the engine's rotating methods do to it, is left to the engine:
    the methods are the fields of the class [Engine], and everything proved
    about the library holds for every instance.  The methods the source calls
    touch the orientation only, and [lookAt] reads the position it looks
    from. *)

Module three.

Record Vector3 : Type := new_Vector3 { x : R; y : R; z : R }.

Class Engine : Type := {
  Orientation : Type;
  rotateOnWorldAxis : Vector3 -> R -> Orientation -> Orientation;
  rotateX : R -> Orientation -> Orientation;
  rotateY : R -> Orientation -> Orientation;
  rotateZ : R -> Orientation -> Orientation;
  (** [lookAt eye target o]: the orientation of a camera at [eye] once it
      faces [target]. *)
  lookAt : Vector3 -> Vector3 -> Orientation -> Orientation
}.

Record Object3D {E : Engine} : Type :=
  new_Object3D { position : Vector3; orientation : Orientation }.

Arguments new_Object3D {E} position orientation.

(** The calls an object can receive, for the engine that only records them. *)
Inductive Call : Type :=
| CallRotateOnWorldAxis (axis : Vector3) (angle : R)
| CallRotateX (angle : R)
| CallRotateY (angle : R)
| CallRotateZ (angle : R)
| CallLookAt (eye target : Vector3).

(** The recording engine: an orientation is the list of the calls made on
    it, oldest first. *)
Definition recorder : Engine := {|
  Orientation := list Call;
  rotateOnWorldAxis axis angle log := log ++ [CallRotateOnWorldAxis axis angle];
  rotateX angle log := log ++ [CallRotateX angle];
  rotateY angle log := log ++ [CallRotateY angle];
  rotateZ angle log := log ++ [CallRotateZ angle];
  lookAt eye target log := log ++ [CallLookAt eye target]
|}.

(** The orientation of the recording engine before any call. *)
Definition no_calls : @Orientation recorder := @nil Call.

(** A call that rotates about the world axis [axis]. *)
Definition about_world_axis (axis : Vector3) (c : Call) : Prop :=
  match c with
  | CallRotateOnWorldAxis a _ => a = axis
  | _ => False
  end.

(** Two points agree within [eps] on every coordinate. *)
Definition near (eps : R) (p q : Vector3) : Prop :=
  Rabs (x p - x q) <= eps /\ Rabs (y p - y q) <= eps /\ Rabs (z p - z q) <= eps.

Section Object3D.

Context {E : Engine}.

Definition Object3D_rotateOnWorldAxis (axis : Vector3) (angle : R)
    (o : Object3D) : Object3D :=
  new_Object3D (position o) (rotateOnWorldAxis axis angle (orientation o)).

Definition Object3D_rotateX (angle : R) (o : Object3D) : Object3D :=
  new_Object3D (position o) (rotateX angle (orientation o)).

Definition Object3D_rotateY (angle : R) (o : Object3D) : Object3D :=
  new_Object3D (position o) (rotateY angle (orientation o)).

Definition Object3D_rotateZ (angle : R) (o : Object3D) : Object3D :=
  new_Object3D (position o) (rotateZ angle (orientation o)).

Definition Object3D_lookAt (target : Vector3) (o : Object3D) : Object3D :=
  new_Object3D (position o) (lookAt (position o) target (orientation o)).

(** [o.position.x = v] and [o.position.z = v]. *)
Definition set_position_x (v : R) (o : Object3D) : Object3D :=
  new_Object3D (new_Vector3 v (y (position o)) (z (position o)))
               (orientation o).

Definition set_position_z (v : R) (o : Object3D) : Object3D :=
  new_Object3D (new_Vector3 (x (position o)) (y (position o)) v)
               (orientation o).

End Object3D.

End three.

(** ** Members of [class site3d]

    *** Static members (lines 5-16) *)

Module site3d.

Import JsNumber.

Definition TwoPI : R := 2 * PI.
Definition PI2 : R := PI / 2.

Definition normalizeRad (angle : R) : R :=
  if eqb (Rabs angle) TwoPI then angle else angle %% TwoPI.

Definition minRotationAngle (start end_ : R) : R :=
  if gtb (Rabs (start - end_)) PI
  then end_ + (if gtb start 0 then TwoPI else - TwoPI)
  else end_.

Definition normalizeDeg (angle : R) : R :=
  if eqb (Rabs angle) 360 then angle else angle %% 360.

Definition toRad (angle : R) : R := normalizeDeg angle * (PI / 180).

Definition toDeg (angle : R) : R := normalizeRad angle * (180 / PI).

(** *** Instance state and camera methods (lines 56, 83, 138-145, 188-233) *)

(** [this._axis], assigned once by the constructor (line 56) and never
    written again. *)
Definition _axis_x : three.Vector3 := three.new_Vector3 1 0 0.
Definition _axis_y : three.Vector3 := three.new_Vector3 0 1 0.
Definition _axis_z : three.Vector3 := three.new_Vector3 0 0 1.

(** [this._cameraRotateOptions]. *)
Record CameraRotateOptions : Type := new_CameraRotateOptions {
  target : three.Vector3;
  axe : string;
  isLook : bool
}.

(** The options object a caller may pass as second argument; an absent
    field is [undefined]. *)
Record Options : Type := new_Options {
  opt_pos : option (R * R * R);
  opt_axe : option string;
  opt_isLook : option bool
}.

(** The argument shapes [rotateCamera(p1, p2, p3)] tells apart:
    three angles, an array to look at, or an angle with optional options. *)
Inductive RotateCameraArgs : Type :=
| Angles (p1 p2 p3 : R)
| LookAt (p1 : R * R * R)
| Orbit (p1 : R) (p2 : option Options).

Section Instance.

Context {E : three.Engine}.

Record Site3d : Type := new_Site3d {
  _camera : three.Object3D;
  _cameraRotateOptions : CameraRotateOptions
}.

(** The value the constructor gives [_cameraRotateOptions] (line 83). *)
Definition default_cameraRotateOptions : CameraRotateOptions :=
  new_CameraRotateOptions (three.new_Vector3 0 0 0) "y" true.

Definition getCameraPos (s : Site3d) : R * R * R :=
  let p := three.position (_camera s) in (three.x p, three.y p, three.z p).

(** [cameraPos([x, y, z])] and [cameraPos(x, y, z)]. *)
Definition cameraPos (p : R * R * R) (s : Site3d) : Site3d :=
  let '(p1, p2, p3) := p in
  new_Site3d
    (three.new_Object3D (three.new_Vector3 p1 p2 p3)
                        (three.orientation (_camera s)))
    (_cameraRotateOptions s).

Definition rotateCameraWorldRad (stepX stepY stepZ : R) (s : Site3d)
    : Site3d :=
  let c := three.Object3D_rotateOnWorldAxis _axis_x stepX (_camera s) in
  let c := three.Object3D_rotateOnWorldAxis _axis_y stepY c in
  let c := three.Object3D_rotateOnWorldAxis _axis_y stepY c in
  new_Site3d c (_cameraRotateOptions s).

(** Lines 210-218: only the fields the caller supplied change. *)
Definition update_options (p2 : option Options)
    (o : CameraRotateOptions) : CameraRotateOptions :=
  match p2 with
  | None => o
  | Some p2 =>
      let o :=
        match opt_pos p2 with
        | Some (a, b, c) =>
            new_CameraRotateOptions (three.new_Vector3 a b c)
                                    (axe o) (isLook o)
        | None => o
        end in
      let o :=
        match opt_axe p2 with
        | Some a => new_CameraRotateOptions (target o) a (isLook o)
        | None => o
        end in
      match opt_isLook p2 with
      | Some b => new_CameraRotateOptions (target o) (axe o) b
      | None => o
      end
  end.

(** Lines 219-230: the orbit step proper. *)
Definition orbit (p1 : R) (opts : CameraRotateOptions)
    (camera : three.Object3D) : three.Object3D :=
  let angle := toRad p1 in
  let camera :=
    if String.eqb (axe opts) "y" then
      let x0 := three.x (target opts) in
      let z0 := three.z (target opts) in
      let x1 := x0 + (three.x (three.position camera) - x0) * cos angle
                   - (three.z (three.position camera) - z0) * sin angle in
      let z1 := z0 + (three.z (three.position camera) - z0) * cos angle
                   + (three.x (three.position camera) - x0) * sin angle in
      three.set_position_z z1 (three.set_position_x x1 camera)
    else camera in
  if isLook opts then three.Object3D_lookAt (target opts) camera
  else camera.

Definition rotateCamera (args : RotateCameraArgs) (s : Site3d) : Site3d :=
  match args with
  | Angles p1 p2 p3 =>
      let c := three.Object3D_rotateX (toRad p1) (_camera s) in
      let c := three.Object3D_rotateY (toRad p2) c in
      let c := three.Object3D_rotateZ (toRad p3) c in
      new_Site3d c (_cameraRotateOptions s)
  | LookAt (a, b, c) =>
      new_Site3d
        (three.Object3D_lookAt (three.new_Vector3 a b c) (_camera s))
        (_cameraRotateOptions s)
  | Orbit p1 p2 =>
      let opts := update_options p2 (_cameraRotateOptions s) in
      new_Site3d (orbit p1 opts (_camera s)) opts
  end.

End Instance.

End site3d.

(** ** Rotation methods of [class site3dModel] (lines 506-519)

    A model's methods act on its engine object [this.OBJECT]. *)

Module site3dModel.

Section Model.

Context {E : three.Engine}.

Definition rotateLocalRad (stepX stepY stepZ : R)
    (OBJECT : three.Object3D) : three.Object3D :=
  three.Object3D_rotateZ stepZ
    (three.Object3D_rotateY stepY
       (three.Object3D_rotateX stepX OBJECT)).

Definition rotateLocal (stepX stepY stepZ : R)
    (OBJECT : three.Object3D) : three.Object3D :=
  rotateLocalRad (site3d.toRad stepX) (site3d.toRad stepY)
                 (site3d.toRad stepZ) OBJECT.

Definition rotateWorldRad (stepX stepY stepZ : R)
    (OBJECT : three.Object3D) : three.Object3D :=
  let o := three.Object3D_rotateOnWorldAxis site3d._axis_x stepX OBJECT in
  let o := three.Object3D_rotateOnWorldAxis site3d._axis_y stepY o in
  three.Object3D_rotateOnWorldAxis site3d._axis_y stepY o.

Definition rotateWorld (stepX stepY stepZ : R)
    (OBJECT : three.Object3D) : three.Object3D :=
  rotateWorldRad (site3d.toRad stepX) (site3d.toRad stepY)
                 (site3d.toRad stepZ) OBJECT.

End Model.

End site3dModel.

(** ** Vocabulary of the specification *)

Section Vocabulary.

Import site3d.

(** The formula of section 4.3: the point [p] turned by [theta] about the
    vertical line through [c]; the height of [p] is kept. *)
Definition orbit_y_formula (c p : three.Vector3) (theta : R)
    : three.Vector3 :=
  three.new_Vector3
    (three.x c + (three.x p - three.x c) * cos theta
               - (three.z p - three.z c) * sin theta)
    (three.y p)
    (three.z c + (three.z p - three.z c) * cos theta
               + (three.x p - three.x c) * sin theta).

(** The scenario of section 8: target [(0, 0, 0)], axis ['y'], camera at
    [(0, 0, 5)]. *)
Definition quarter_turn_scenario {E : three.Engine}
    (o : three.Orientation) (look : bool) : Site3d :=
  new_Site3d
    (three.new_Object3D (three.new_Vector3 0 0 5) o)
    (new_CameraRotateOptions (three.new_Vector3 0 0 0) "y" look).

(** What the spec asks of a normal form [r] of [theta] for a full turn
    [turn], with the range read on the magnitude: below one turn, of the
    sign of [theta], and a whole number of turns away from [theta]. *)
Definition reduced (turn theta r : R) : Prop :=
  0 <= Rabs r < turn
  /\ (0 <= theta -> 0 <= r) /\ (theta <= 0 -> r <= 0)
  /\ exists k : Z, theta = r + IZR k * turn.

(** The three cases of the selector, by the tests of the source. *)
Variant selector_case (start end_ : R) : R -> Prop :=
| Near : Rabs (start - end_) <= PI -> selector_case start end_ end_
| FarPos : Rabs (start - end_) > PI -> start > 0 ->
    selector_case start end_ (end_ + TwoPI)
| FarNonpos : Rabs (start - end_) > PI -> start <= 0 ->
    selector_case start end_ (end_ - TwoPI).

End Vocabulary.

(** ** Further members: rotations as Euler angles (lines 20-31, 180-187,
    498-505)

    [rotation] is the engine's triple of Euler angles: [rotation.set] stores
    three numbers and [rotation.x], [rotation.y], [rotation.z] read them
    back.  The helpers that write into the rotation they are given return
    the rotation as it is afterwards. *)

Module Rotation.

Import site3d.

Record Euler : Type := new_Euler { x : R; y : R; z : R }.


(** The end rotation after the call; the start rotation is only read. *)
Definition _minRotation (startRotation endRotation : Euler) : Euler :=
  new_Euler (minRotationAngle (x startRotation) (x endRotation))
            (minRotationAngle (y startRotation) (y endRotation))
            (minRotationAngle (z startRotation) (z endRotation)).



(** Every angle of the rotation satisfies [P]. *)
Definition each (P : R -> Prop) (rotation : Euler) : Prop :=
  P (x rotation) /\ P (y rotation) /\ P (z rotation).

(** Every angle of [r] is related by [Q] to the same angle of [r']. *)
Definition each2 (Q : R -> R -> Prop) (r r' : Euler) : Prop :=
  Q (x r) (x r') /\ Q (y r) (y r') /\ Q (z r) (z r').

End Rotation.

(** ** Further members: pointer events (line 18)

    A touch carries its position as [clientX] and [clientY]. *)

Module Pointer.



End Pointer.

(** ** Further members: the camera's position (lines 138-146) *)

Module Camera.

Import JsNumber site3d.

Section Instance.

Context {E : three.Engine}.

Definition isCameraPos (pos : R * R * R) (s : Site3d) : bool :=
  let '(p0, p1, p2) := pos in
  eqb (three.x (three.position (_camera s))) p0
  && eqb (three.y (three.position (_camera s))) p1
  && eqb (three.z (three.position (_camera s))) p2.

End Instance.

End Camera.

(** ** Further members: position and scale of a model or light (lines
    447-497, 647-659)

    The methods act on [this.OBJECT.position] and [this.OBJECT.scale], two
    engine vectors; each is given as the vector before and returns the
    vector after. *)

Module Transform.

(** [(p1, p2, p3)] as an array in [p1], or as three numbers. *)
Inductive Args : Type :=
| Arr (a : R * R * R)
| Nums (p1 p2 p3 : R).

(** The arguments of [setScale] and [scale]: an array, or a number followed
    by two numbers that may be missing. *)
Inductive ScaleArgs : Type :=
| SArr (a : R * R * R)
| SNums (p1 : R) (p2 p3 : option R).



Definition pos (args : Args) (position : three.Vector3) : three.Vector3 :=
  match args with
  | Arr (a, b, c) => three.new_Vector3 a b c
  | Nums p1 p2 p3 => three.new_Vector3 p1 p2 p3
  end.



Definition setScale (args : ScaleArgs) (scale : three.Vector3)
    : three.Vector3 :=
  match args with
  | SArr (a, b, c) => three.new_Vector3 a b c
  | SNums p1 (Some p2) (Some p3) => three.new_Vector3 p1 p2 p3
  | SNums p1 _ _ => three.new_Vector3 p1 p1 p1
  end.

Definition scale (args : ScaleArgs) (value : three.Vector3)
    : three.Vector3 :=
  match args with
  | SArr (a, b, c) =>
      setScale (SNums (three.x value + a) (Some (three.y value + b))
                      (Some (three.z value + c))) value
  | SNums p1 (Some p2) (Some p3) =>
      setScale (SNums (three.x value + p1) (Some (three.y value + p2))
                      (Some (three.z value + p3))) value
  | SNums p1 _ _ =>
      setScale (SNums (three.x value + p1) (Some (three.y value + p1))
                      (Some (three.z value + p1))) value
  end.

End Transform.

(** ** Further members: models, their registry and the load counters
    (lines 99-103, 108-115, 355-370, 417-445, 587-615)

    A model object is referred to by a handle, its rank among the models
    ever constructed; [heap] holds the model objects, each with its name and
    whether its [OBJECT] is set.  [_models] is the [Map] from names to
    models, read only through [get], [set] and [delete]; [_scene] lists the
    models whose [OBJECT] is a child of the scene, in the order they were
    added ([add] appends a new child, [remove] takes a child out and ignores
    anything else).  The callback [_loadInfo.load] is taken to observe only:
    [reports] lists what it was called with, oldest first.  The counters are
    natural numbers.  A font arriving for a text model is an event of its
    own.  Building the mesh of a model (its geometry and its material) is
    taken to succeed, and the callback a text model is given for its own
    arrival is left out. *)

Module Models.

Record LoadInfo : Type := new_LoadInfo {
  countModel : nat;
  countModelPreload : nat;
  countModelLoaded : nat
}.

(** The object [_callLoad] passes to the callback. *)
Record Report : Type := new_Report {
  r_countModel : nat;
  r_countModelLoaded : nat;
  r_countModelPreload : nat;
  is_preload_completed : bool
}.

(** [isLoaded]: [this.OBJECT != null]. *)
Record Model : Type := new_Model { name : string; isLoaded : bool }.

(** A [Map] with string keys, as far as [get], [has], [set] and [delete]
    show it. *)
Definition Map (V : Type) : Type := list (string * V).

Definition Map_get {V : Type} (k : string) (m : Map V) : option V :=
  option_map snd (find (fun e => String.eqb (fst e) k) m).

Definition Map_has {V : Type} (k : string) (m : Map V) : bool :=
  existsb (fun e => String.eqb (fst e) k) m.

Definition Map_delete {V : Type} (k : string) (m : Map V) : Map V :=
  filter (fun e => negb (String.eqb (fst e) k)) m.

Definition Map_set {V : Type} (k : string) (v : V) (m : Map V) : Map V :=
  (k, v) :: Map_delete k m.

Record World : Type := new_World {
  _loadInfo : LoadInfo;
  load : bool;
  reports : list Report;
  heap : list Model;
  _models : Map nat;
  _scene : list nat
}.

(** The state the constructor leaves (lines 76-81), with or without a
    [load] callback. *)
Definition init (load : bool) : World :=
  new_World (new_LoadInfo 0 0 0) load [] [] [] [].

Definition _callLoad (w : World) : World :=
  if load w then
    let i := _loadInfo w in
    new_World i (load w)
      (reports w
       ++ [new_Report (countModel i) (countModelLoaded i)
             (countModelPreload i)
             (negb (countModelPreload i =? 0)
              && (countModelPreload i =? countModelLoaded i))%nat])
      (heap w) (_models w) (_scene w)
  else w.

Definition preload (w : World) : World :=
  let i := _loadInfo w in
  _callLoad
    (new_World (new_LoadInfo (countModel i) (countModel i)
                             (countModelLoaded i))
       (load w) (reports w) (heap w) (_models w) (_scene w)).

Definition _addModel (m : nat) (w : World) : World :=
  let scene :=
    match nth_error (heap w) m with
    | Some model => if isLoaded model then _scene w ++ [m] else _scene w
    | None => _scene w
    end in
  let i := _loadInfo w in
  _callLoad
    (new_World (new_LoadInfo (countModel i) (countModelPreload i)
                             (S (countModelLoaded i)))
       (load w) (reports w) (heap w) (_models w) scene).

(** [countModel++]. *)
Definition count_model (w : World) : World :=
  let i := _loadInfo w in
  new_World (new_LoadInfo (S (countModel i)) (countModelPreload i)
                          (countModelLoaded i))
    (load w) (reports w) (heap w) (_models w) (_scene w).

Definition set_models (k : string) (m : nat) (w : World) : World :=
  new_World (_loadInfo w) (load w) (reports w) (heap w)
    (Map_set k m (_models w)) (_scene w).

(** The constructor of [site3dModel] with a geometry, then the [set] of
    [plane], [circle], [cube], [sphere], [hemisphere] and [octahedron]. *)
Definition geometry (n : string) (w : World) : World :=
  let m := length (heap w) in
  let w := new_World (_loadInfo w) (load w) (reports w)
             (heap w ++ [new_Model n true]) (_models w) (_scene w) in
  let w := _addModel m w in
  let w := count_model w in
  set_models n m w.

(** The constructor of [site3dText] up to the request for the font, then
    the [set] of [text]. *)
Definition text (n : string) (w : World) : World :=
  let m := length (heap w) in
  let w := new_World (_loadInfo w) (load w) (reports w)
             (heap w ++ [new_Model n false]) (_models w) (_scene w) in
  let w := count_model w in
  set_models n m w.

(** [l] with its element of rank [m] marked as loaded. *)
Fixpoint mark_loaded (m : nat) (l : list Model) : list Model :=
  match l, m with
  | [], _ => []
  | model :: l, O => new_Model (name model) true :: l
  | model :: l, S m => model :: mark_loaded m l
  end.

(** The font of the text model [m] arrives: its [OBJECT] is set and
    [_addModel] is called.  Nothing to do ([None]) for a handle that is not
    a text model waiting for its font. *)
Definition font_loaded (m : nat) (w : World) : option World :=
  match nth_error (heap w) m with
  | Some model =>
      if isLoaded model then None
      else Some (_addModel m
                   (new_World (_loadInfo w) (load w) (reports w)
                      (mark_loaded m (heap w)) (_models w) (_scene w)))
  | None => None
  end.

(** [remove()] on the model with handle [m]. *)
Definition remove (m : nat) (w : World) : option World :=
  match nth_error (heap w) m with
  | Some model =>
      Some (new_World (_loadInfo w) (load w) (reports w) (heap w)
              (Map_delete (name model) (_models w))
              (if isLoaded model
               then filter (fun c => negb (c =? m)%nat) (_scene w)
               else _scene w))
  | None => None
  end.

(** [model(name)]. *)
Definition model (n : string) (w : World) : option nat :=
  Map_get n (_models w).

(** What can happen to the models of one [site3d]. *)
Inductive Event : Type :=
| Geometry (n : string)
| Text (n : string)
| FontLoaded (m : nat)
| Remove (m : nat)
| Preload.

Definition step (e : Event) (w : World) : option World :=
  match e with
  | Geometry n => Some (geometry n w)
  | Text n => Some (text n w)
  | FontLoaded m => font_loaded m w
  | Remove m => remove m w
  | Preload => Some (preload w)
  end.

Fixpoint run (es : list Event) (w : World) : option World :=
  match es with
  | [] => Some w
  | e :: es =>
      match step e w with
      | Some w => run es w
      | None => None
      end
  end.

(** The worlds a [site3d] can be in. *)
Definition reachable (w : World) : Prop :=
  exists (callback : bool) (es : list Event), run es (init callback) = Some w.

Definition count_loaded (l : list Model) : nat :=
  length (filter isLoaded l).

Definition is_Preload (e : Event) : bool :=
  match e with Preload => true | _ => false end.

End Models.

(** ** Further members: materials and fills (lines 117, 262-353, 533-536)

    Materials are engine objects with identity: [heap] holds them and a
    material is referred to by its rank there.  A material record keeps the
    properties the source reads or writes; a property the material's class
    does not have ([undefined]) is [None].  What a new material of each
    class looks like is the engine's business and a parameter, [fresh].
    [None] for a material stands for [undefined].  A fill is [undefined],
    a string or an object whose [value] is a string, [null] or [undefined];
    other fills are outside the model. *)

Module Materials.

Inductive Kind : Type := Physical | Basic | Lambert | Phong.

Inductive Side : Type := FrontSide | BackSide | DoubleSide.

Inductive Blending : Type :=
| NoBlending | NormalBlending | AdditiveBlending | SubtractiveBlending
| MultiplyBlending.

(** The texture [_getMaterialTexture(path)] asks the loader for; [repeat]
    is the count last given to [repeat.set], if any. *)
Record Texture : Type := new_Texture { path : string; repeat : option R }.

(** [emissiveMap]: null or undefined, the very texture of [map], or some
    other texture. *)
Inductive EmissiveMap : Type := NoEmissiveMap | TheMap | OtherMap.

Record Material : Type := new_Material {
  color : option string;
  map : option Texture;
  emissiveMap : EmissiveMap;
  side : Side;
  emissive : option (option string);
  shininess : option R;
  metalness : option R;
  roughness : option R;
  blending : Blending;
  transparent : bool;
  opacity : R
}.

(** A fill object; an absent field is [undefined] ([f_value] also when it is
    [null]). *)
Record Options : Type := new_Options {
  f_value : option string;
  f_type : option string;
  f_count : option R;
  f_side : option string;
  f_color : option string;
  f_emissive : option string;
  f_shininess : option R;
  f_metalness : option R;
  f_roughness : option R;
  f_blending : option string;
  f_transparent : option bool;
  f_opacity : option R
}.

(** What a caller may pass as a fill. *)
Inductive Fill : Type :=
| FUndefined
| FString (s : string)
| FObject (o : Options).

(** The fill object with nothing but [value]. *)
Definition only_value (v : option string) : Options :=
  new_Options v None None None None None None None None None None None.

(** [s.indexOf(sub) != -1]. *)
Definition includes (sub s : string) : bool :=
  match index 0 sub s with Some _ => true | None => false end.

Record Store : Type := new_Store {
  heap : list Material;
  _materials : Models.Map (option nat)
}.

(** How a call ends: with a [TypeError], or returning a material (or
    [undefined]) and the store as it is then. *)
Inductive Outcome : Type :=
| Threw
| Returned (material : option nat) (w : Store).

(** [l] with [f] applied to its element of rank [m]. *)
Fixpoint update (m : nat) (f : Material -> Material) (l : list Material)
    : list Material :=
  match l, m with
  | [], _ => []
  | x :: l, O => f x :: l
  | x :: l, S m => x :: update m f l
  end.

Definition write (m : nat) (f : Material -> Material) (w : Store) : Store :=
  new_Store (update m f (heap w)) (_materials w).

(** The assignments of [_setMaterialOptions] on a material that exists. *)
Definition set_options (options : Options) (material : Material)
    : Material :=
  let material :=
    match f_count options, map material with
    | Some c, Some t =>
        new_Material (color material) (Some (new_Texture (path t) (Some c)))
          (emissiveMap material) (side material) (emissive material)
          (shininess material) (metalness material) (roughness material)
          (blending material) (transparent material) (opacity material)
    | _, _ => material
    end in
  let material :=
    match f_side options with
    | Some s =>
        new_Material (color material) (map material) (emissiveMap material)
          (if String.eqb s "inside" then BackSide
           else if String.eqb s "both" then DoubleSide else FrontSide)
          (emissive material) (shininess material) (metalness material)
          (roughness material) (blending material) (transparent material)
          (opacity material)
    | None => material
    end in
  let material :=
    match f_color options with
    | Some c =>
        new_Material (Some c) (map material) (emissiveMap material)
          (side material) (emissive material) (shininess material)
          (metalness material) (roughness material) (blending material)
          (transparent material) (opacity material)
    | None => material
    end in
  let material :=
    match f_emissive options, emissive material with
    | Some e, Some _ =>
        new_Material (color material) (map material) (emissiveMap material)
          (side material) (Some (Some e)) (shininess material)
          (metalness material) (roughness material) (blending material)
          (transparent material) (opacity material)
    | _, _ => material
    end in
  let material :=
    match f_shininess options, shininess material with
    | Some v, Some _ =>
        new_Material (color material) (map material) (emissiveMap material)
          (side material) (emissive material) (Some v) (metalness material)
          (roughness material) (blending material) (transparent material)
          (opacity material)
    | _, _ => material
    end in
  let material :=
    match f_metalness options, metalness material with
    | Some v, Some _ =>
        new_Material (color material) (map material) (emissiveMap material)
          (side material) (emissive material) (shininess material) (Some v)
          (roughness material) (blending material) (transparent material)
          (opacity material)
    | _, _ => material
    end in
  let material :=
    match f_roughness options, roughness material with
    | Some v, Some _ =>
        new_Material (color material) (map material) (emissiveMap material)
          (side material) (emissive material) (shininess material)
          (metalness material) (Some v) (blending material)
          (transparent material) (opacity material)
    | _, _ => material
    end in
  let material :=
    match f_blending options with
    | Some b =>
        new_Material (color material) (map material) (emissiveMap material)
          (side material) (emissive material) (shininess material)
          (metalness material) (roughness material)
          (if String.eqb b "no" then NoBlending
           else if String.eqb b "subtractive" then SubtractiveBlending
           else if String.eqb b "multiply" then MultiplyBlending
           else if String.eqb b "additive" then AdditiveBlending
           else NormalBlending)
          (transparent material) (opacity material)
    | None => material
    end in
  let material :=
    match f_transparent options with
    | Some t =>
        new_Material (color material) (map material) (emissiveMap material)
          (side material) (emissive material) (shininess material)
          (metalness material) (roughness material) (blending material)
          t (opacity material)
    | None => material
    end in
  match f_opacity options with
  | Some a =>
      new_Material (color material) (map material) (emissiveMap material)
        (side material) (emissive material) (shininess material)
        (metalness material) (roughness material) (blending material)
        (transparent material) a
  | None => material
  end.

Definition given {A : Type} (o : option A) : bool :=
  match o with Some _ => true | None => false end.

(** Whether [_setMaterialOptions] reads or writes a property of the
    material at all. *)
Definition touches (options : Options) : bool :=
  given (f_count options) || given (f_side options)
  || given (f_color options) || given (f_emissive options)
  || given (f_shininess options) || given (f_metalness options)
  || given (f_roughness options) || given (f_blending options)
  || given (f_transparent options) || given (f_opacity options).

(** [_setMaterialOptions(material, options)]; on [undefined] the first
    property it touches throws. *)
Definition _setMaterialOptions (material : option nat) (options : Options)
    (w : Store) : option Store :=
  match material with
  | Some m => Some (write m (set_options options) w)
  | None => if touches options then None else Some w
  end.

Section Engine.

(** [new MeshPhysicalMaterial()], [new MeshBasicMaterial()], ... *)
Variable fresh : Kind -> Material.

Definition alloc (k : Kind) (w : Store) : option nat * Store :=
  (Some (length (heap w)), new_Store (heap w ++ [fresh k]) (_materials w)).

Definition _getMaterial (updatedMaterial : option nat)
    (type : option string) (w : Store) : option nat * Store :=
  match updatedMaterial, type with
  | Some m, None => (Some m, w)
  | _, None => alloc Physical w
  | _, Some t =>
      if String.eqb t "physical" then alloc Physical w
      else if String.eqb t "basic" then alloc Basic w
      else if String.eqb t "lambert" then alloc Lambert w
      else if String.eqb t "phong" then alloc Phong w
      else (None, w)
  end.

(** [material.color.set(v)]. *)
Definition set_color (v : string) (material : Material) : Material :=
  new_Material (Some v) (map material) (emissiveMap material)
    (side material) (emissive material) (shininess material)
    (metalness material) (roughness material) (blending material)
    (transparent material) (opacity material).

(** [material.map = this._getMaterialTexture(v)], and [emissiveMap] made
    the same texture when it is not null. *)
Definition set_map (v : string) (material : Material) : Material :=
  new_Material (color material) (Some (new_Texture v None))
    (match emissiveMap material with
     | NoEmissiveMap => NoEmissiveMap
     | _ => TheMap
     end)
    (side material) (emissive material) (shininess material)
    (metalness material) (roughness material) (blending material)
    (transparent material) (opacity material).

(** The fill object the method works on after its first lines. *)
Definition fill_options (fill : Fill) : Options :=
  match fill with
  | FUndefined => only_value (Some "#ffffff"%string)
  | FString s => only_value (Some s)
  | FObject o => o
  end.

Definition _getFilledMaterial (fill : Fill) (updatedMaterial : option nat)
    (w : Store) : Outcome :=
  let fill := fill_options fill in
  let chosen :=
    match f_value fill with
    | Some v =>
        if Models.Map_has v (_materials w) then
          match Models.Map_get v (_materials w) with
          | Some material => Some (material, w)
          | None => Some (None, w)
          end
        else
          let '(material, w) := _getMaterial updatedMaterial (f_type fill) w in
          if includes "#" v then
            match material with
            | Some m => Some (material, write m (set_color v) w)
            | None => None
            end
          else if includes ".jpg" v || includes ".png" v then
            match material with
            | Some m => Some (material, write m (set_map v) w)
            | None => None
            end
          else Some (material, w)
    | None => Some (_getMaterial updatedMaterial (f_type fill) w)
    end in
  match chosen with
  | Some (material, w) =>
      match _setMaterialOptions material fill w with
      | Some w => Returned material w
      | None => Threw
      end
  | None => Threw
  end.

(** [_updateMaterial(material, fill)], which is what [fill(fill)] of a model
    calls with the model's material: the result is dropped. *)
Definition _updateMaterial (material : nat) (fill : Fill) (w : Store)
    : option Store :=
  match _getFilledMaterial fill (Some material) w with
  | Returned _ w => Some w
  | Threw => None
  end.

(** [addFill(name, fill)]. *)
Definition addFill (n : string) (fill : Fill) (w : Store) : option Store :=
  match _getFilledMaterial fill None w with
  | Returned material w =>
      Some (new_Store (heap w) (Models.Map_set n material (_materials w)))
  | Threw => None
  end.

End Engine.

End Materials.

(** ** Further vocabulary *)

Section Vocabulary2.



(** Two angles point the same way. *)
Definition same_direction (a b : R) : Prop := cos a = cos b /\ sin a = sin b.

(** The report [_callLoad] makes of the counters [i]. *)
Definition report_of (i : Models.LoadInfo) : Models.Report :=
  Models.new_Report (Models.countModel i) (Models.countModelLoaded i)
    (Models.countModelPreload i)
    (negb (Models.countModelPreload i =? 0)
     && (Models.countModelPreload i =? Models.countModelLoaded i))%nat.

(** What holds of every report: at most one more model loaded than counted,
    no more models expected by [preload] than counted, and the completion
    flag set exactly when the preload count is not zero and has been
    reached. *)
Definition report_ok (r : Models.Report) : Prop :=
  (Models.r_countModelLoaded r <= S (Models.r_countModel r))%nat
  /\ (Models.r_countModelPreload r <= Models.r_countModel r)%nat
  /\ (Models.is_preload_completed r = true <->
      Models.r_countModelPreload r <> 0%nat
      /\ Models.r_countModelPreload r = Models.r_countModelLoaded r).

(** The bookkeeping of a world agrees with its models. *)
Definition consistent (w : Models.World) : Prop :=
  Models.countModel (Models._loadInfo w) = length (Models.heap w)
  /\ Models.countModelLoaded (Models._loadInfo w)
     = Models.count_loaded (Models.heap w)
  /\ (Models.countModelPreload (Models._loadInfo w)
      <= Models.countModel (Models._loadInfo w))%nat
  /\ NoDup (Models._scene w)
  /\ (forall m, In m (Models._scene w) ->
      exists model, nth_error (Models.heap w) m = Some model
                    /\ Models.isLoaded model = true)
  /\ (forall n m, Models.Map_get n (Models._models w) = Some m ->
      exists model, nth_error (Models.heap w) m = Some model
                    /\ Models.name model = n)
  /\ Forall report_ok (Models.reports w)
  /\ (Models.load w = false -> Models.reports w = []).

End Vocabulary2.

(** ** Facts about truncation and the remainder *)

Section Remainder.

Import JsNumber.

Lemma eqb_true_iff (a b : R) : eqb a b = true <-> a = b.
Proof. unfold eqb; destruct (Req_dec_T a b); split; congruence. Qed.

Lemma eqb_false_iff (a b : R) : eqb a b = false <-> a <> b.
Proof. unfold eqb; destruct (Req_dec_T a b); split; congruence. Qed.

Lemma gtb_true_iff (a b : R) : gtb a b = true <-> a > b.
Proof. unfold gtb; destruct (Rgt_dec a b); split; congruence. Qed.

Lemma gtb_false_iff (a b : R) : gtb a b = false <-> a <= b.
Proof.
  unfold gtb; destruct (Rgt_dec a b); split; intros; try congruence; lra.
Qed.

Lemma Rabs_le_iff (a b : R) : Rabs a <= b <-> - b <= a <= b.
Proof.
  split; [|apply Rabs_le].
  unfold Rabs; destruct (Rcase_abs a); lra.
Qed.

(** The integer part brackets its argument. *)
Lemma Int_part_bounds (r : R) : IZR (Int_part r) <= r < IZR (Int_part r) + 1.
Proof. destruct (base_Int_part r); lra. Qed.

Lemma trunc_nonneg (r : R) :
  0 <= r -> IZR (trunc r) <= r < IZR (trunc r) + 1.
Proof.
  intros Hr; unfold trunc; destruct (Rle_dec 0 r); [|lra].
  apply Int_part_bounds.
Qed.

Lemma trunc_neg (r : R) :
  r < 0 -> IZR (trunc r) - 1 < r <= IZR (trunc r).
Proof.
  intros Hr; unfold trunc; destruct (Rle_dec 0 r); [lra|].
  rewrite opp_IZR. pose proof (Int_part_bounds (- r)); lra.
Qed.

Lemma trunc_small (r : R) : -1 < r < 1 -> trunc r = 0%Z.
Proof.
  intros Hr.
  destruct (Rle_dec 0 r) as [H0|H0].
  - pose proof (trunc_nonneg r H0) as Hb.
    assert (Hz : (-1 < trunc r < 1)%Z)
      by (split; apply lt_IZR; lra).
    lia.
  - pose proof (trunc_neg r ltac:(lra)) as Hb.
    assert (Hz : (-1 < trunc r < 1)%Z)
      by (split; apply lt_IZR; lra).
    lia.
Qed.

Variable d : R.
Hypothesis d_pos : 0 < d.

(** The remainder differs from the dividend by a whole number of [d]. *)
Lemma rem_congr (n : R) : n = n %% d + IZR (trunc (n / d)) * d.
Proof. unfold rem; lra. Qed.

Lemma quot_mult (n : R) : n / d * d = n.
Proof. field; lra. Qed.

(** A non-negative dividend leaves a remainder in [[0, d)]. *)
Lemma rem_nonneg (n : R) : 0 <= n -> 0 <= n %% d < d.
Proof.
  intros Hn.
  assert (Hq : 0 <= n / d)
    by (apply Rmult_le_pos; [lra | left; apply Rinv_0_lt_compat; lra]).
  pose proof (trunc_nonneg _ Hq) as [Hlo Hhi].
  pose proof (quot_mult n) as Hm.
  unfold rem. split; nra.
Qed.

(** A dividend already smaller than the divisor is its own remainder. *)
Lemma rem_small (n : R) : Rabs n < d -> n %% d = n.
Proof.
  intros Hn. unfold rem.
  rewrite trunc_small; [ring|].
  assert (Hd : 0 < / d) by (apply Rinv_0_lt_compat; lra).
  pose proof (quot_mult n) as Hm.
  apply Rabs_def2 in Hn. split; nra.
Qed.

(** A non-positive dividend leaves a remainder in [(-d, 0]]. *)
Lemma rem_nonpos (n : R) : n <= 0 -> - d < n %% d <= 0.
Proof.
  intros Hn.
  destruct (Req_dec_T n 0) as [->|Hne].
  - rewrite rem_small; [lra | rewrite Rabs_R0; lra].
  - assert (Hq : n / d < 0).
    { unfold Rdiv. rewrite <- (Rmult_0_l (/ d)).
      apply Rmult_lt_compat_r; [apply Rinv_0_lt_compat; lra | lra]. }
    pose proof (trunc_neg _ Hq) as [Hlo Hhi].
    pose proof (quot_mult n) as Hm.
    unfold rem. split; nra.
Qed.

(** The remainder is smaller than the divisor in magnitude. *)
Lemma rem_abs_lt (n : R) : Rabs (n %% d) < d.
Proof.
  destruct (Rle_dec 0 n) as [H|H].
  - pose proof (rem_nonneg n H). rewrite Rabs_pos_eq; lra.
  - pose proof (rem_nonpos n ltac:(lra)).
    rewrite Rabs_left1; lra.
Qed.

End Remainder.

(** ** The angle normalizer *)

Section Normalize.

Import JsNumber site3d.

Lemma PI_bounds : 3 < PI <= 4.
Proof. pose proof PI2_3_2; pose proof PI_4; lra. Qed.

Lemma TwoPI_pos : 0 < TwoPI.
Proof. unfold TwoPI; pose proof PI_bounds; lra. Qed.

Lemma TwoPI_bounds : 6 < TwoPI <= 8.
Proof. unfold TwoPI; pose proof PI_bounds; lra. Qed.

(** An angle of magnitude one full turn is returned as it is. *)
Lemma normalizeRad_full_turn (angle : R) :
  Rabs angle = TwoPI -> normalizeRad angle = angle.
Proof.
  intros H; unfold normalizeRad.
  apply eqb_true_iff in H; now rewrite H.
Qed.

Lemma normalizeDeg_full_turn (angle : R) :
  Rabs angle = 360 -> normalizeDeg angle = angle.
Proof.
  intros H; unfold normalizeDeg.
  apply eqb_true_iff in H; now rewrite H.
Qed.

(** Any other angle is reduced by the remainder. *)
Lemma normalizeRad_other (angle : R) :
  Rabs angle <> TwoPI -> normalizeRad angle = angle %% TwoPI.
Proof.
  intros H; unfold normalizeRad.
  apply eqb_false_iff in H; now rewrite H.
Qed.

Lemma normalizeDeg_other (angle : R) :
  Rabs angle <> 360 -> normalizeDeg angle = angle %% 360.
Proof.
  intros H; unfold normalizeDeg.
  apply eqb_false_iff in H; now rewrite H.
Qed.

(** An angle below one full turn in magnitude is its own normal form. *)
Lemma normalizeRad_small (angle : R) :
  Rabs angle < TwoPI -> normalizeRad angle = angle.
Proof.
  intros H. rewrite normalizeRad_other by lra.
  apply rem_small; [apply TwoPI_pos | exact H].
Qed.

Lemma normalizeDeg_small (angle : R) :
  Rabs angle < 360 -> normalizeDeg angle = angle.
Proof.
  intros H. rewrite normalizeDeg_other by lra.
  apply rem_small; [lra | exact H].
Qed.

(** The normal form never exceeds one full turn in magnitude. *)
Lemma normalizeRad_abs_le (angle : R) : Rabs (normalizeRad angle) <= TwoPI.
Proof.
  destruct (Req_dec_T (Rabs angle) TwoPI) as [H|H].
  - rewrite normalizeRad_full_turn by exact H. lra.
  - rewrite normalizeRad_other by exact H.
    left; apply rem_abs_lt, TwoPI_pos.
Qed.

Lemma normalizeDeg_abs_le (angle : R) : Rabs (normalizeDeg angle) <= 360.
Proof.
  destruct (Req_dec_T (Rabs angle) 360) as [H|H].
  - rewrite normalizeDeg_full_turn by exact H. lra.
  - rewrite normalizeDeg_other by exact H.
    left; apply rem_abs_lt; lra.
Qed.

(** Normalizing twice is normalizing once (the spec's idempotence). *)
Lemma normalizeRad_idempotent (angle : R) :
  normalizeRad (normalizeRad angle) = normalizeRad angle.
Proof.
  destruct (Req_dec_T (Rabs angle) TwoPI) as [H|H].
  - now rewrite !normalizeRad_full_turn by (try rewrite normalizeRad_full_turn; exact H).
  - rewrite (normalizeRad_other angle H).
    apply normalizeRad_small, rem_abs_lt, TwoPI_pos.
Qed.

Lemma normalizeDeg_idempotent (angle : R) :
  normalizeDeg (normalizeDeg angle) = normalizeDeg angle.
Proof.
  destruct (Req_dec_T (Rabs angle) 360) as [H|H].
  - now rewrite !normalizeDeg_full_turn by (try rewrite normalizeDeg_full_turn; exact H).
  - rewrite (normalizeDeg_other angle H).
    apply normalizeDeg_small, rem_abs_lt; lra.
Qed.

Lemma rem_reduced (turn theta : R) :
  0 < turn -> reduced turn theta (theta %% turn).
Proof.
  intros Ht. repeat split.
  - apply Rabs_pos.
  - now apply rem_abs_lt.
  - intros H; now apply rem_nonneg.
  - intros H; now apply rem_nonpos.
  - exists (trunc (theta / turn)). unfold rem; lra.
Qed.

(** C6.  A full turn passes through: [normalizeRad] returns [2π] and [-2π]
    unchanged and [normalizeDeg] returns [360] and [-360] unchanged; none of
    them is reduced to [0]. *)
Theorem full_turn_pass_through :
  normalizeRad TwoPI = TwoPI /\ normalizeRad (- TwoPI) = - TwoPI
  /\ normalizeDeg 360 = 360 /\ normalizeDeg (-360) = -360
  /\ normalizeRad TwoPI <> 0 /\ normalizeRad (- TwoPI) <> 0
  /\ normalizeDeg 360 <> 0 /\ normalizeDeg (-360) <> 0.
Proof.
  pose proof TwoPI_pos as Hp.
  assert (H1 : normalizeRad TwoPI = TwoPI)
    by (apply normalizeRad_full_turn, Rabs_pos_eq; lra).
  assert (H2 : normalizeRad (- TwoPI) = - TwoPI)
    by (apply normalizeRad_full_turn; rewrite Rabs_Ropp; apply Rabs_pos_eq; lra).
  assert (H3 : normalizeDeg 360 = 360)
    by (apply normalizeDeg_full_turn, Rabs_pos_eq; lra).
  assert (H4 : normalizeDeg (-360) = -360)
    by (apply normalizeDeg_full_turn; rewrite Rabs_left; lra).
  rewrite H1, H2, H3, H4. repeat split; lra.
Qed.

(** C3, as stated, fails at a negative angle: [normalizeRad (-1)] is [-1],
    which is not in [[0, 2π)], and [normalizeDeg (-1)] is [-1], which is not
    in [[0, 360)]. *)
Lemma normalize_negative_out_of_range :
  Rabs (-1) <> TwoPI /\ normalizeRad (-1) = -1
  /\ ~ (0 <= normalizeRad (-1) < TwoPI)
  /\ Rabs (-1) <> 360 /\ normalizeDeg (-1) = -1
  /\ ~ (0 <= normalizeDeg (-1) < 360).
Proof.
  pose proof TwoPI_bounds as Hb.
  assert (Ha : Rabs (-1) = 1) by (rewrite Rabs_left; lra).
  assert (H1 : normalizeRad (-1) = -1)
    by (apply normalizeRad_small; rewrite Ha; lra).
  assert (H2 : normalizeDeg (-1) = -1)
    by (apply normalizeDeg_small; rewrite Ha; lra).
  rewrite H1, H2, Ha. repeat split; lra.
Qed.

(** C3, amended.  For an angle whose magnitude is not one full turn, the
    magnitude of the normal form lies in [[0, 2π)], the normal form has the
    sign of the angle and differs from it by a whole number of turns; the
    same in degrees with [360]. *)
Theorem normalize_reduced (theta deg : R) :
  Rabs theta <> TwoPI -> Rabs deg <> 360 ->
  reduced TwoPI theta (normalizeRad theta)
  /\ reduced 360 deg (normalizeDeg deg).
Proof.
  intros Ht Hd.
  rewrite normalizeRad_other by exact Ht.
  rewrite normalizeDeg_other by exact Hd.
  split; apply rem_reduced; [apply TwoPI_pos | lra].
Qed.

Lemma normalize_reduced_witness :
  (Rabs (-9) <> TwoPI /\ Rabs (-400) <> 360)
  /\ reduced TwoPI (-9) (normalizeRad (-9))
  /\ reduced 360 (-400) (normalizeDeg (-400)).
Proof.
  assert (H9 : Rabs (-9) <> TwoPI).
  { rewrite Rabs_left by lra. pose proof TwoPI_bounds; lra. }
  assert (H4 : Rabs (-400) <> 360).
  { rewrite Rabs_left by lra. lra. }
  split; [split; assumption|].
  exact (normalize_reduced (-9) (-400) H9 H4).
Defined.

End Normalize.

(** ** Unit conversion *)

Section Conversion.

Import JsNumber site3d.

(** An angle of at most one full turn in magnitude is its own normal form. *)
Lemma normalizeRad_within_turn (angle : R) :
  Rabs angle <= TwoPI -> normalizeRad angle = angle.
Proof.
  intros [H|H];
    [now apply normalizeRad_small | now apply normalizeRad_full_turn].
Qed.


(** Scaling by [π/180] maps degrees within one turn to radians within one
    turn. *)
Lemma scaled_within_turn (deg : R) :
  Rabs deg <= 360 -> Rabs (deg * (PI / 180)) <= TwoPI.
Proof.
  intros H. pose proof PI_bounds as Hp.
  rewrite Rabs_mult, (Rabs_pos_eq (PI / 180)) by lra.
  unfold TwoPI. pose proof (Rabs_pos deg). nra.
Qed.

Lemma toRad_abs_le (angle : R) : Rabs (toRad angle) <= TwoPI.
Proof. apply scaled_within_turn, normalizeDeg_abs_le. Qed.

(** C8.  [toRad] normalizes in degrees and scales by [π/180], [toDeg]
    normalizes in radians and scales by [180/π], and converting a degree
    value to radians and back gives its normal form in degrees (exactly so
    in real arithmetic, hence within every tolerance). *)
Theorem toDeg_toRad (d : R) :
  toRad d = normalizeDeg d * (PI / 180)
  /\ toDeg (toRad d) = normalizeRad (toRad d) * (180 / PI)
  /\ toDeg (toRad d) = normalizeDeg d.
Proof.
  split; [reflexivity|]. split; [reflexivity|].
  unfold toDeg. rewrite normalizeRad_within_turn by apply toRad_abs_le.
  unfold toRad. pose proof PI_bounds. field; lra.
Qed.


End Conversion.

(** ** The minimal-path selector *)

Section MinRotation.

Import JsNumber site3d.

Lemma PI_tight : 3.1415 < PI < 3.1416.
Proof.
  pose proof (PI_2_3_7_ineq 2) as [Hlo Hhi].
  unfold PI_2_3_7_tg, tg_alt, Ratan_seq in Hlo, Hhi.
  simpl in Hlo, Hhi. split; lra.
Qed.

Lemma minRotationAngle_near (start end_ : R) :
  Rabs (start - end_) <= PI -> minRotationAngle start end_ = end_.
Proof.
  intros H; unfold minRotationAngle.
  apply gtb_false_iff in H; now rewrite H.
Qed.

Lemma minRotationAngle_far_pos (start end_ : R) :
  Rabs (start - end_) > PI -> start > 0 ->
  minRotationAngle start end_ = end_ + TwoPI.
Proof.
  intros H Hs; unfold minRotationAngle.
  apply gtb_true_iff in H, Hs; now rewrite H, Hs.
Qed.

Lemma minRotationAngle_far_nonpos (start end_ : R) :
  Rabs (start - end_) > PI -> start <= 0 ->
  minRotationAngle start end_ = end_ - TwoPI.
Proof.
  intros H Hs; unfold minRotationAngle.
  apply gtb_true_iff in H. apply gtb_false_iff in Hs.
  rewrite H, Hs. lra.
Qed.

Lemma minRotationAngle_case (start end_ : R) :
  selector_case start end_ (minRotationAngle start end_).
Proof.
  destruct (Rle_dec (Rabs (start - end_)) PI) as [H|H].
  - rewrite minRotationAngle_near by exact H. now constructor.
  - destruct (Rgt_dec start 0) as [Hs|Hs].
    + rewrite minRotationAngle_far_pos by lra. constructor; lra.
    + rewrite minRotationAngle_far_nonpos by lra. constructor; lra.
Qed.

(** C5.  The selector returns [end] unchanged when [|start - end| <= π]
    (the test is strict, so also at exactly [π]); otherwise it returns
    [end + 2π] when [start > 0] and [end - 2π] when [start <= 0].  In
    particular [minRotationAngle 3 (-3) = -3 + 2π], about [3.283]. *)
Theorem minRotationAngle_spec (start end_ : R) :
  (Rabs (start - end_) <= PI -> minRotationAngle start end_ = end_)
  /\ (Rabs (start - end_) = PI -> minRotationAngle start end_ = end_)
  /\ (Rabs (start - end_) > PI -> start > 0 ->
      minRotationAngle start end_ = end_ + TwoPI)
  /\ (Rabs (start - end_) > PI -> start <= 0 ->
      minRotationAngle start end_ = end_ - TwoPI)
  /\ minRotationAngle 3 (-3) = -3 + TwoPI
  /\ 3.283 < minRotationAngle 3 (-3) < 3.284.
Proof.
  split; [apply minRotationAngle_near|].
  split; [intros H; apply minRotationAngle_near; lra|].
  split; [apply minRotationAngle_far_pos|].
  split; [apply minRotationAngle_far_nonpos|].
  pose proof PI_tight as Hp.
  assert (H : minRotationAngle 3 (-3) = -3 + TwoPI).
  { apply minRotationAngle_far_pos; [|lra].
    replace (3 - -3) with 6 by lra. rewrite Rabs_pos_eq; lra. }
  rewrite H. unfold TwoPI. repeat split; lra.
Qed.

(** The selector moves [end] by a whole number of turns: none, one up or
    one down. *)
Lemma minRotationAngle_congruent (start end_ : R) :
  exists k : Z, minRotationAngle start end_ = end_ + IZR k * TwoPI.
Proof.
  destruct (minRotationAngle_case start end_).
  - exists 0%Z; lra.
  - exists 1%Z; lra.
  - exists (-1)%Z; lra.
Qed.

(** Exactly when the result is within half a turn of [start]: the angles
    were already that close, or [end] lies on the side the sign of [start]
    assumes and no more than a turn and a half away. *)
Lemma minRotationAngle_half_turn_iff (start end_ : R) :
  Rabs (start - minRotationAngle start end_) <= PI <->
  Rabs (start - end_) <= PI
  \/ (start > 0 /\ PI < start - end_ <= 3 * PI)
  \/ (start <= 0 /\ PI < end_ - start <= 3 * PI).
Proof.
  pose proof PI_bounds as Hp.
  destruct (minRotationAngle_case start end_) as [H|H Hs|H Hs];
    unfold TwoPI; split.
  - now left.
  - intros _; exact H.
  - intros Hr. right; left. apply Rabs_le_iff in Hr.
    split; [exact Hs|]. split; [|lra].
    unfold Rabs in H; destruct (Rcase_abs (start - end_)); lra.
  - intros [Hc|[[_ Hc]|[Hc _]]]; [lra | | lra].
    apply Rabs_le; lra.
  - intros Hr. right; right. apply Rabs_le_iff in Hr.
    split; [exact Hs|]. split; [|lra].
    unfold Rabs in H; destruct (Rcase_abs (start - end_)); lra.
  - intros [Hc|[[Hc _]|[_ Hc]]]; [lra | lra |].
    apply Rabs_le; lra.
Qed.

(** C1, as stated, fails: from [start = 1] the selector sends [end = 5] to
    [5 + 2π], which is [4 + 2π] away from [start]. *)
Lemma minRotationAngle_not_minimal :
  minRotationAngle 1 5 = 5 + TwoPI
  /\ ~ (Rabs (1 - minRotationAngle 1 5) <= PI).
Proof.
  pose proof PI_tight as Hp.
  assert (H : minRotationAngle 1 5 = 5 + TwoPI).
  { apply minRotationAngle_far_pos; [|lra].
    replace (1 - 5) with (-4) by lra. rewrite Rabs_left; lra. }
  split; [exact H|]. rewrite H. unfold TwoPI.
  intros Hc. apply Rabs_le_iff in Hc. lra.
Qed.

(** C1, amended.  The result is always congruent to [end] modulo [2π], and
    it is within [π] of [start] whenever [start] and [end] both lie in
    [[-π, π]]. *)
Theorem minRotationAngle_half_turn (start end_ : R) :
  (exists k : Z, minRotationAngle start end_ = end_ + IZR k * TwoPI)
  /\ (- PI <= start <= PI -> - PI <= end_ <= PI ->
      Rabs (start - minRotationAngle start end_) <= PI).
Proof.
  split; [apply minRotationAngle_congruent|].
  intros Hs He.
  apply minRotationAngle_half_turn_iff.
  destruct (Rle_dec (Rabs (start - end_)) PI) as [H|H]; [now left|right].
  apply Rnot_le_gt in H.
  unfold Rabs in H; destruct (Rcase_abs (start - end_));
    [right | left]; lra.
Qed.

Lemma minRotationAngle_half_turn_witness :
  (- PI <= 3 <= PI /\ - PI <= -3 <= PI)
  /\ Rabs (3 - minRotationAngle 3 (-3)) <= PI.
Proof.
  assert (H3 : - PI <= 3 <= PI) by (pose proof PI_bounds; lra).
  assert (H3' : - PI <= -3 <= PI) by (pose proof PI_bounds; lra).
  split; [split; assumption|].
  exact (proj2 (minRotationAngle_half_turn 3 (-3)) H3 H3').
Defined.

End MinRotation.

(** ** Periodicity: the cosine and sine of a converted angle *)

Section Periodicity.

Import JsNumber site3d.

Lemma cos_period_Z (a : R) (k : Z) : cos (a + 2 * IZR k * PI) = cos a.
Proof.
  destruct (Z_le_gt_dec 0 k) as [Hk|Hk].
  - rewrite <- (Z2Nat.id k Hk), <- INR_IZR_INZ. apply cos_period.
  - rewrite <- (cos_period (a + 2 * IZR k * PI) (Z.to_nat (- k))).
    rewrite INR_IZR_INZ, Z2Nat.id, opp_IZR by lia.
    f_equal; ring.
Qed.

Lemma sin_period_Z (a : R) (k : Z) : sin (a + 2 * IZR k * PI) = sin a.
Proof.
  destruct (Z_le_gt_dec 0 k) as [Hk|Hk].
  - rewrite <- (Z2Nat.id k Hk), <- INR_IZR_INZ. apply sin_period.
  - rewrite <- (sin_period (a + 2 * IZR k * PI) (Z.to_nat (- k))).
    rewrite INR_IZR_INZ, Z2Nat.id, opp_IZR by lia.
    f_equal; ring.
Qed.

(** [normalizeDeg] removes a whole number of turns, also at a full turn. *)
Lemma normalizeDeg_congruent (d : R) :
  exists k : Z, d = normalizeDeg d + IZR k * 360.
Proof.
  destruct (Req_dec_T (Rabs d) 360) as [H|H].
  - exists 0%Z. rewrite normalizeDeg_full_turn by exact H. lra.
  - exists (trunc (d / 360)). rewrite normalizeDeg_other by exact H.
    unfold rem; lra.
Qed.

Lemma normalizeRad_congruent (r : R) :
  exists k : Z, r = normalizeRad r + IZR k * TwoPI.
Proof.
  destruct (Req_dec_T (Rabs r) TwoPI) as [H|H].
  - exists 0%Z. rewrite normalizeRad_full_turn by exact H. lra.
  - exists (trunc (r / TwoPI)). rewrite normalizeRad_other by exact H.
    unfold rem; lra.
Qed.

(** [toRad d] is [d] degrees in radians, up to whole turns. *)
Lemma toRad_congruent (d : R) :
  exists k : Z, d * (PI / 180) = toRad d + 2 * IZR k * PI.
Proof.
  destruct (normalizeDeg_congruent d) as [k Hk].
  exists k. unfold toRad. rewrite Hk at 1. field.
Qed.

Lemma cos_toRad (d : R) : cos (toRad d) = cos (d * (PI / 180)).
Proof.
  destruct (toRad_congruent d) as [k ->]. symmetry; apply cos_period_Z.
Qed.

Lemma sin_toRad (d : R) : sin (toRad d) = sin (d * (PI / 180)).
Proof.
  destruct (toRad_congruent d) as [k ->]. symmetry; apply sin_period_Z.
Qed.

Lemma toRad_90 : toRad 90 = PI / 2.
Proof.
  unfold toRad. rewrite normalizeDeg_small by (rewrite Rabs_pos_eq; lra).
  field.
Qed.

End Periodicity.

(** ** The orbit step of [rotateCamera] *)

Section OrbitStep.

Import site3d.

Context {E : three.Engine}.

Lemma lookAt_keeps_position (target : three.Vector3) (o : three.Object3D) :
  three.position (three.Object3D_lookAt target o) = three.position o.
Proof. reflexivity. Qed.

(** The position after an orbit step about the axis ['y']. *)
Lemma orbit_position_y (p1 : R) (opts : CameraRotateOptions)
    (camera : three.Object3D) :
  axe opts = "y"%string ->
  three.position (orbit p1 opts camera)
  = orbit_y_formula (target opts) (three.position camera) (toRad p1).
Proof.
  intros Ha. unfold orbit. rewrite Ha. simpl String.eqb. cbv iota.
  destruct (isLook opts); reflexivity.
Qed.

(** The position after an orbit step about any other axis. *)
Lemma orbit_position_other (p1 : R) (opts : CameraRotateOptions)
    (camera : three.Object3D) :
  axe opts <> "y"%string ->
  three.position (orbit p1 opts camera) = three.position camera.
Proof.
  intros Ha. unfold orbit.
  apply String.eqb_neq in Ha. rewrite Ha.
  destruct (isLook opts); reflexivity.
Qed.

(** The orientation after an orbit step that re-aims. *)
Lemma orbit_orientation_look (p1 : R) (opts : CameraRotateOptions)
    (camera : three.Object3D) :
  isLook opts = true ->
  three.orientation (orbit p1 opts camera)
  = three.lookAt (three.position (orbit p1 opts camera)) (target opts)
                 (three.orientation camera).
Proof.
  intros Hl. unfold orbit. rewrite Hl.
  destruct (String.eqb (axe opts) "y"); reflexivity.
Qed.

(** Without re-aiming the orientation is left alone. *)
Lemma orbit_orientation_no_look (p1 : R) (opts : CameraRotateOptions)
    (camera : three.Object3D) :
  isLook opts = false ->
  three.orientation (orbit p1 opts camera) = three.orientation camera.
Proof.
  intros Hl. unfold orbit. rewrite Hl.
  destruct (String.eqb (axe opts) "y"); reflexivity.
Qed.

(** The formula does not depend on the whole turns [toRad] removes. *)
Lemma orbit_y_formula_toRad (c p : three.Vector3) (d : R) :
  orbit_y_formula c p (toRad d) = orbit_y_formula c p (d * (PI / 180)).
Proof. unfold orbit_y_formula. now rewrite cos_toRad, sin_toRad. Qed.

(** C4.  When the stored axis is ['y'], an orbit step by [p1] degrees puts
    the camera at [(x0 + (x - x0) cos θ - (z - z0) sin θ, y,
    z0 + (z - z0) cos θ + (x - x0) sin θ)], with [θ] the angle in radians
    and [(x0, z0)] taken from the stored target; the Y coordinate is
    unchanged. *)
Theorem orbit_step_axis_y (s : Site3d) (p1 : R) (p2 : option Options) :
  let opts := update_options p2 (_cameraRotateOptions s) in
  let p := three.position (_camera s) in
  let p' := three.position (_camera (rotateCamera (Orbit p1 p2) s)) in
  axe opts = "y"%string ->
  p' = three.new_Vector3
         (three.x (target opts)
          + (three.x p - three.x (target opts)) * cos (toRad p1)
          - (three.z p - three.z (target opts)) * sin (toRad p1))
         (three.y p)
         (three.z (target opts)
          + (three.z p - three.z (target opts)) * cos (toRad p1)
          + (three.x p - three.x (target opts)) * sin (toRad p1))
  /\ p' = orbit_y_formula (target opts) p (p1 * (PI / 180))
  /\ three.y p' = three.y p.
Proof.
  intros opts p p' Ha.
  assert (Hp : p' = orbit_y_formula (target opts) p (toRad p1))
    by (apply orbit_position_y; exact Ha).
  split; [exact Hp|]. split.
  - rewrite Hp. apply orbit_y_formula_toRad.
  - rewrite Hp. reflexivity.
Qed.

(** C7.  When the stored axis is not ['y'], [rotateCamera(angle)] returns
    (the method has no failing path) and leaves the camera position and the
    stored options as they were. *)
Theorem orbit_step_other_axis (s : Site3d) (angle : R) :
  axe (_cameraRotateOptions s) <> "y"%string ->
  three.position (_camera (rotateCamera (Orbit angle None) s))
  = three.position (_camera s)
  /\ getCameraPos (rotateCamera (Orbit angle None) s) = getCameraPos s
  /\ _cameraRotateOptions (rotateCamera (Orbit angle None) s)
     = _cameraRotateOptions s.
Proof.
  intros Ha.
  assert (Hp : three.position (_camera (rotateCamera (Orbit angle None) s))
               = three.position (_camera s))
    by (apply orbit_position_other; exact Ha).
  split; [exact Hp|]. split; [|reflexivity].
  unfold getCameraPos. now rewrite Hp.
Qed.

(** C10.  When the stored [isLook] is true, an orbit step re-aims the
    camera at the stored target from wherever the step left it, whatever
    the stored axis; for an axis other than ['y'] the position stays and
    the orientation is the engine's look-at from that position, so it
    changes whenever the engine's look-at changes it. *)
Theorem orbit_step_looks_at_target (s : Site3d) (p1 : R)
    (p2 : option Options) :
  let opts := update_options p2 (_cameraRotateOptions s) in
  let camera' := _camera (rotateCamera (Orbit p1 p2) s) in
  isLook opts = true ->
  three.orientation camera'
  = three.lookAt (three.position camera') (target opts)
                 (three.orientation (_camera s))
  /\ (axe opts <> "y"%string ->
      three.position camera' = three.position (_camera s)
      /\ camera' = three.Object3D_lookAt (target opts) (_camera s)
      /\ (three.lookAt (three.position (_camera s)) (target opts)
                       (three.orientation (_camera s))
          <> three.orientation (_camera s) ->
          three.orientation camera' <> three.orientation (_camera s))).
Proof.
  intros opts camera' Hl.
  assert (Ho : three.orientation camera'
               = three.lookAt (three.position camera') (target opts)
                              (three.orientation (_camera s)))
    by (apply orbit_orientation_look; exact Hl).
  split; [exact Ho|].
  intros Ha.
  assert (Hp : three.position camera' = three.position (_camera s))
    by (apply orbit_position_other; exact Ha).
  split; [exact Hp|]. split.
  - destruct camera' as [pos ori] eqn:Hc. simpl in Hp, Ho.
    unfold three.Object3D_lookAt. now rewrite Ho, Hp.
  - intros Hne. rewrite Ho, Hp. exact Hne.
Qed.

(** Where the quarter turn of the scenario ends. *)
Lemma quarter_turn_position (o : three.Orientation) (look : bool) :
  three.position
    (_camera (rotateCamera (Orbit 90 None) (quarter_turn_scenario o look)))
  = three.new_Vector3 (-5) 0 0.
Proof.
  unfold rotateCamera, quarter_turn_scenario. cbn [update_options _camera].
  rewrite orbit_position_y by reflexivity.
  unfold orbit_y_formula.
  cbn [three.position three.x three.y three.z target _camera
       _cameraRotateOptions].
  rewrite toRad_90, cos_PI2, sin_PI2. f_equal; ring.
Qed.

(** C2, amended.  With target [(0, 0, 0)], axis ['y'] and the camera at
    [(0, 0, 5)], an orbit step of 90 degrees puts the camera at
    [(-5, 0, 0)] (exactly so in real arithmetic, hence within every
    tolerance); the Y coordinate is unchanged. *)
Theorem orbit_quarter_turn (o : three.Orientation) (look : bool) :
  three.position
    (_camera (rotateCamera (Orbit 90 None) (quarter_turn_scenario o look)))
  = three.new_Vector3 (-5) 0 0
  /\ (forall eps : R, 0 <= eps ->
      three.near eps
        (three.position
           (_camera (rotateCamera (Orbit 90 None)
                                  (quarter_turn_scenario o look))))
        (three.new_Vector3 (-5) 0 0))
  /\ three.y (three.position
                (_camera (rotateCamera (Orbit 90 None)
                                       (quarter_turn_scenario o look))))
     = three.y (three.position (_camera (quarter_turn_scenario o look))).
Proof.
  rewrite quarter_turn_position.
  split; [reflexivity|]. split; [|reflexivity].
  intros eps Heps. unfold three.near. cbn [three.x three.y three.z].
  replace (-5 - -5) with 0 by ring. replace (0 - 0) with 0 by ring.
  rewrite Rabs_R0. repeat split; exact Heps.
Qed.

End OrbitStep.

(** The orbit step on the recording engine, at concrete inputs. *)

Section OrbitStepExamples.

Import site3d.

Lemma orbit_step_axis_y_witness :
  let s := quarter_turn_scenario (E := three.recorder) three.no_calls true in
  let p' := three.position (_camera (rotateCamera (Orbit 90 None) s)) in
  axe (update_options None (_cameraRotateOptions s)) = "y"%string
  /\ p' = three.new_Vector3
            (0 + (0 - 0) * cos (toRad 90) - (5 - 0) * sin (toRad 90))
            0
            (0 + (5 - 0) * cos (toRad 90) + (0 - 0) * sin (toRad 90))
  /\ p' = orbit_y_formula (three.new_Vector3 0 0 0)
                          (three.new_Vector3 0 0 5) (90 * (PI / 180))
  /\ three.y p' = 0.
Proof.
  split; [reflexivity|].
  exact (orbit_step_axis_y
           (quarter_turn_scenario (E := three.recorder) three.no_calls true)
           90 None eq_refl).
Defined.

(** A camera whose stored axis is ['x']. *)
Lemma orbit_step_other_axis_witness :
  let s := new_Site3d (E := three.recorder)
             (three.new_Object3D (three.new_Vector3 0 0 5) three.no_calls)
             (new_CameraRotateOptions (three.new_Vector3 0 0 0) "x" true) in
  axe (_cameraRotateOptions s) <> "y"%string
  /\ three.position (_camera (rotateCamera (Orbit 90 None) s))
     = three.new_Vector3 0 0 5
  /\ getCameraPos (rotateCamera (Orbit 90 None) s) = (0, 0, 5)
  /\ _cameraRotateOptions (rotateCamera (Orbit 90 None) s)
     = new_CameraRotateOptions (three.new_Vector3 0 0 0) "x" true.
Proof.
  assert (H : "x"%string <> "y"%string) by discriminate.
  split; [exact H|].
  exact (orbit_step_other_axis
           (new_Site3d (E := three.recorder)
              (three.new_Object3D (three.new_Vector3 0 0 5) three.no_calls)
              (new_CameraRotateOptions (three.new_Vector3 0 0 0) "x" true))
           90 H).
Defined.

(** On the recording engine the step about ['x'] leaves the position and
    adds exactly one look-at call to the orientation. *)
Lemma orbit_step_other_axis_recorded :
  _camera (rotateCamera (E := three.recorder) (Orbit 90 None)
             (new_Site3d
                (three.new_Object3D (three.new_Vector3 0 0 5) three.no_calls)
                (new_CameraRotateOptions (three.new_Vector3 0 0 0) "x" true)))
  = three.new_Object3D (E := three.recorder) (three.new_Vector3 0 0 5)
      [three.CallLookAt (three.new_Vector3 0 0 5) (three.new_Vector3 0 0 0)].
Proof. reflexivity. Qed.

Lemma orbit_step_looks_at_target_witness :
  let s := new_Site3d (E := three.recorder)
             (three.new_Object3D (three.new_Vector3 0 0 5) three.no_calls)
             (new_CameraRotateOptions (three.new_Vector3 0 0 0) "x" true) in
  let camera' := _camera (rotateCamera (Orbit 90 None) s) in
  isLook (update_options None (_cameraRotateOptions s)) = true
  /\ three.orientation camera'
     = three.lookAt (three.position camera') (three.new_Vector3 0 0 0) three.no_calls
  /\ ("x"%string <> "y"%string ->
      three.position camera' = three.new_Vector3 0 0 5
      /\ camera' = three.Object3D_lookAt (three.new_Vector3 0 0 0) (_camera s)
      /\ (three.lookAt (three.new_Vector3 0 0 5) (three.new_Vector3 0 0 0) three.no_calls
          <> three.no_calls ->
          three.orientation camera' <> three.no_calls)).
Proof.
  split; [reflexivity|].
  exact (orbit_step_looks_at_target
           (new_Site3d (E := three.recorder)
              (three.new_Object3D (three.new_Vector3 0 0 5) three.no_calls)
              (new_CameraRotateOptions (three.new_Vector3 0 0 0) "x" true))
           90 None eq_refl).
Defined.

(** C2, as stated, fails: the step ends at [x = -5], ten units from the
    [x = 5] of the scenario, so the position is not within any tolerance
    below [10] of [(5, 0, 0)]. *)
Lemma orbit_quarter_turn_not_at_5 :
  three.position
    (_camera (rotateCamera (Orbit 90 None)
                (quarter_turn_scenario (E := three.recorder) three.no_calls true)))
  = three.new_Vector3 (-5) 0 0
  /\ (forall eps : R, eps < 10 ->
      ~ three.near eps
          (three.position
             (_camera (rotateCamera (Orbit 90 None)
                         (quarter_turn_scenario (E := three.recorder)
                                                three.no_calls true))))
          (three.new_Vector3 5 0 0)).
Proof.
  rewrite quarter_turn_position. split; [reflexivity|].
  intros eps Heps [Hx _]. cbn [three.x] in Hx.
  replace (-5 - 5) with (-10) in Hx by ring.
  rewrite Rabs_left in Hx; lra.
Qed.

End OrbitStepExamples.

(** ** Rotation about the world axes *)

Section WorldRotation.

Import site3d.

Lemma axis_x_not_z : _axis_x <> _axis_z.
Proof. intros H; apply (f_equal three.x) in H; simpl in H; lra. Qed.

Lemma axis_y_not_z : _axis_y <> _axis_z.
Proof. intros H; apply (f_equal three.y) in H; simpl in H; lra. Qed.

(** The sibling [rotateLocalRad] does pass [stepZ] on, to [rotateZ]. *)
Lemma rotateLocalRad_recorded (stepX stepY stepZ : R) (p : three.Vector3)
    (log : list three.Call) :
  three.orientation
    (site3dModel.rotateLocalRad (E := three.recorder) stepX stepY stepZ
       (three.new_Object3D (E := three.recorder) p log))
  = ((log ++ [three.CallRotateX stepX]) ++ [three.CallRotateY stepY])
      ++ [three.CallRotateZ stepZ].
Proof. reflexivity. Qed.

(** C9.  [rotateWorldRad] on a model and [rotateCameraWorldRad] on the
    camera rotate about the world x axis by [stepX], then about the world y
    axis by [stepY], then about the world y axis by [stepY] again.  [stepZ]
    is not used: the result is the same for every [stepZ], and of the calls
    the engine receives none is about the world z axis. *)
Theorem rotateWorldRad_ignores_stepZ (E : three.Engine)
    (stepX stepY stepZ : R) (OBJECT : three.Object3D) (s : Site3d)
    (p : three.Vector3) (log : list three.Call)
    (opts : CameraRotateOptions) :
  let calls := [three.CallRotateOnWorldAxis _axis_x stepX;
                three.CallRotateOnWorldAxis _axis_y stepY;
                three.CallRotateOnWorldAxis _axis_y stepY] in
  site3dModel.rotateWorldRad stepX stepY stepZ OBJECT
  = three.Object3D_rotateOnWorldAxis _axis_y stepY
      (three.Object3D_rotateOnWorldAxis _axis_y stepY
         (three.Object3D_rotateOnWorldAxis _axis_x stepX OBJECT))
  /\ _camera (rotateCameraWorldRad stepX stepY stepZ s)
     = three.Object3D_rotateOnWorldAxis _axis_y stepY
         (three.Object3D_rotateOnWorldAxis _axis_y stepY
            (three.Object3D_rotateOnWorldAxis _axis_x stepX (_camera s)))
  /\ (forall stepZ' : R,
      site3dModel.rotateWorldRad stepX stepY stepZ' OBJECT
      = site3dModel.rotateWorldRad stepX stepY stepZ OBJECT
      /\ rotateCameraWorldRad stepX stepY stepZ' s
         = rotateCameraWorldRad stepX stepY stepZ s)
  /\ three.orientation
       (site3dModel.rotateWorldRad (E := three.recorder) stepX stepY stepZ
          (three.new_Object3D (E := three.recorder) p log))
     = log ++ calls
  /\ three.orientation
       (_camera (rotateCameraWorldRad (E := three.recorder)
                   stepX stepY stepZ
                   (new_Site3d (three.new_Object3D (E := three.recorder) p log) opts)))
     = log ++ calls
  /\ Forall (fun c => ~ three.about_world_axis _axis_z c) calls.
Proof.
  intros calls.
  split; [reflexivity|]. split; [reflexivity|].
  split; [intros stepZ'; split; reflexivity|].
  split; [cbn; now rewrite <- !app_assoc|].
  split; [cbn; now rewrite <- !app_assoc|].
  repeat constructor; cbn;
    first [apply axis_x_not_z | apply axis_y_not_z].
Qed.

End WorldRotation.

(** ** The scenarios on binary64

    The values a JavaScript engine computes at the inputs used above. *)

Section Binary64Scenarios.

Import Binary64.

Local Open Scope float_scope.

(** A full turn passes through unchanged, in both units and both signs. *)
Example binary64_full_turn :
  normalizeRad TwoPI = TwoPI /\ normalizeRad (- TwoPI) = - TwoPI
  /\ normalizeDeg 360 = 360 /\ normalizeDeg (-360) = -360.
Proof. repeat split; vm_compute; reflexivity. Qed.

(** A negative angle keeps its sign. *)
Example binary64_normalize_negative :
  normalizeRad (-1) = -1 /\ normalizeDeg (-1) = -1
  /\ (normalizeRad (-9) <? 0) = true /\ (- TwoPI <? normalizeRad (-9)) = true
  /\ normalizeDeg (-400) = -40.
Proof. repeat split; vm_compute; reflexivity. Qed.

(** [minRotationAngle(3.0, -3.0)] is [-3.0 + 2π], about [3.283]; a
    difference of exactly [Math.PI] is left alone. *)
Example binary64_minRotationAngle_scenario :
  minRotationAngle 3 (-3) = -3 + TwoPI
  /\ (3283 / 1000 <? minRotationAngle 3 (-3)) = true
  /\ (minRotationAngle 3 (-3) <? 3284 / 1000) = true
  /\ minRotationAngle PI 0 = 0.
Proof. repeat split; vm_compute; reflexivity. Qed.

(** [minRotationAngle(1, 5)] is [5 + 2π], farther than [π] from [1]. *)
Example binary64_minRotationAngle_far :
  minRotationAngle 1 5 = 5 + TwoPI
  /\ (PI <? abs (1 - minRotationAngle 1 5)) = true.
Proof. repeat split; vm_compute; reflexivity. Qed.

(** The round trip through radians at a quarter turn, at a full turn and
    beyond it. *)
Example binary64_round_trip :
  toRad 90 = PI2 /\ toDeg (toRad 90) = normalizeDeg 90
  /\ toDeg (toRad 360) = normalizeDeg 360
  /\ toDeg (toRad 450) = normalizeDeg 450
  /\ toDeg (toRad (-360)) = normalizeDeg (-360).
Proof. repeat split; vm_compute; reflexivity. Qed.

End Binary64Scenarios.

(** ** Further properties of the angle helpers *)

Section AngleLaws.

Import JsNumber site3d.

Lemma trunc_opp (r : R) : trunc (- r) = (- trunc r)%Z.
Proof.
  destruct (Rtotal_order r 0) as [Hr|[->|Hr]].
  - unfold trunc.
    destruct (Rle_dec 0 (- r)); [|lra]. destruct (Rle_dec 0 r); [lra|].
    now rewrite Z.opp_involutive.
  - rewrite Ropp_0, (trunc_small 0) by lra. reflexivity.
  - unfold trunc.
    destruct (Rle_dec 0 (- r)); [lra|]. destruct (Rle_dec 0 r); [|lra].
    now rewrite Ropp_involutive.
Qed.

Lemma rem_opp (n d : R) : (- n) %% d = - (n %% d).
Proof.
  unfold rem. replace (- n / d) with (- (n / d)) by (unfold Rdiv; ring).
  rewrite trunc_opp, opp_IZR. ring.
Qed.

Lemma normalizeRad_opp (a : R) : normalizeRad (- a) = - normalizeRad a.
Proof.
  unfold normalizeRad. rewrite Rabs_Ropp.
  destruct (eqb (Rabs a) TwoPI); [reflexivity | apply rem_opp].
Qed.

Lemma normalizeDeg_opp (a : R) : normalizeDeg (- a) = - normalizeDeg a.
Proof.
  unfold normalizeDeg. rewrite Rabs_Ropp.
  destruct (eqb (Rabs a) 360); [reflexivity | apply rem_opp].
Qed.

Lemma cos_normalizeRad (a : R) : cos (normalizeRad a) = cos a.
Proof.
  destruct (normalizeRad_congruent a) as [k Hk].
  rewrite Hk at 2. unfold TwoPI.
  replace (normalizeRad a + IZR k * (2 * PI))
    with (normalizeRad a + 2 * IZR k * PI) by ring.
  symmetry; apply cos_period_Z.
Qed.

Lemma sin_normalizeRad (a : R) : sin (normalizeRad a) = sin a.
Proof.
  destruct (normalizeRad_congruent a) as [k Hk].
  rewrite Hk at 2. unfold TwoPI.
  replace (normalizeRad a + IZR k * (2 * PI))
    with (normalizeRad a + 2 * IZR k * PI) by ring.
  symmetry; apply sin_period_Z.
Qed.

Lemma toDeg_abs_le (r : R) : Rabs (toDeg r) <= 360.
Proof.
  unfold toDeg. pose proof PI_bounds as Hp.
  pose proof (normalizeRad_abs_le r) as Hn. unfold TwoPI in Hn.
  assert (Hq : 0 < 180 / PI)
    by (apply Rmult_lt_0_compat; [lra | apply Rinv_0_lt_compat; lra]).
  rewrite Rabs_mult, (Rabs_pos_eq (180 / PI)) by lra.
  replace 360 with (2 * PI * (180 / PI)) by (field; lra).
  apply Rmult_le_compat_r; lra.
Qed.

(** X1.  Normalizing is idempotent, in radians and in degrees: a normal form
    is its own normal form, also at the full turn that passes through. *)
Theorem normalize_idempotent (angle : R) :
  normalizeRad (normalizeRad angle) = normalizeRad angle
  /\ normalizeDeg (normalizeDeg angle) = normalizeDeg angle.
Proof.
  split; [apply normalizeRad_idempotent | apply normalizeDeg_idempotent].
Qed.

(** X2.  The four helpers are odd functions: negating the argument negates
    the result, so a rotation and its reverse normalize and convert alike. *)
Theorem angle_helpers_odd (angle : R) :
  normalizeRad (- angle) = - normalizeRad angle
  /\ normalizeDeg (- angle) = - normalizeDeg angle
  /\ toRad (- angle) = - toRad angle
  /\ toDeg (- angle) = - toDeg angle.
Proof.
  split; [apply normalizeRad_opp|]. split; [apply normalizeDeg_opp|].
  unfold toRad, toDeg. rewrite normalizeDeg_opp, normalizeRad_opp.
  split; ring.
Qed.

(** X3.  Normalizing and converting never change where an angle points:
    [normalizeRad] keeps the cosine and the sine, [toRad d] has those of [d]
    degrees, and [toDeg r], read in degrees, has those of [r]. *)
Theorem helpers_same_direction (angle : R) :
  same_direction (normalizeRad angle) angle
  /\ same_direction (toRad angle) (angle * (PI / 180))
  /\ same_direction (toDeg angle * (PI / 180)) angle.
Proof.
  split; [split; [apply cos_normalizeRad | apply sin_normalizeRad]|].
  split; [split; [apply cos_toRad | apply sin_toRad]|].
  assert (H : toDeg angle * (PI / 180) = normalizeRad angle)
    by (unfold toDeg; pose proof PI_bounds; field; lra).
  rewrite H. split; [apply cos_normalizeRad | apply sin_normalizeRad].
Qed.

(** X4.  Whatever the argument, a normal form and a converted angle never
    exceed one full turn in magnitude: [2π] for [normalizeRad] and [toRad],
    [360] for [normalizeDeg] and [toDeg]. *)
Theorem helpers_within_one_turn (angle : R) :
  Rabs (normalizeRad angle) <= TwoPI /\ Rabs (normalizeDeg angle) <= 360
  /\ Rabs (toRad angle) <= TwoPI /\ Rabs (toDeg angle) <= 360.
Proof.
  split; [apply normalizeRad_abs_le|]. split; [apply normalizeDeg_abs_le|].
  split; [apply toRad_abs_le | apply toDeg_abs_le].
Qed.


(** X6.  The selector's result is within half a turn of [start] exactly
    when the two angles were already that close, or [end] lies on the side
    the sign of [start] assumes ([end] below a positive [start], above a
    non-positive one) and no more than a turn and a half away. *)
Theorem minRotationAngle_within_half_turn_exactly (start end_ : R) :
  Rabs (start - minRotationAngle start end_) <= PI <->
  Rabs (start - end_) <= PI
  \/ (start > 0 /\ PI < start - end_ <= 3 * PI)
  \/ (start <= 0 /\ PI < end_ - start <= 3 * PI).
Proof. apply minRotationAngle_half_turn_iff. Qed.

(** X7.  The selector returns [end], [end + 2π] or [end - 2π], so its result
    always points the same way as [end]; and it leaves alone an [end] equal
    to [start]. *)
Theorem minRotationAngle_same_direction (start end_ : R) :
  (minRotationAngle start end_ = end_
   \/ minRotationAngle start end_ = end_ + TwoPI
   \/ minRotationAngle start end_ = end_ - TwoPI)
  /\ same_direction (minRotationAngle start end_) end_
  /\ minRotationAngle start start = start.
Proof.
  assert (Hc : forall a k, same_direction (a + IZR k * TwoPI) a).
  { intros a k. unfold TwoPI.
    replace (a + IZR k * (2 * PI)) with (a + 2 * IZR k * PI) by ring.
    split; [apply cos_period_Z | apply sin_period_Z]. }
  split; [|split].
  - destruct (minRotationAngle_case start end_); auto.
  - destruct (minRotationAngle_congruent start end_) as [k ->]. apply Hc.
  - apply minRotationAngle_near.
    replace (start - start) with 0 by ring.
    rewrite Rabs_R0. pose proof PI_bounds; lra.
Qed.

End AngleLaws.

(** ** Rotations as Euler angles *)

Section RotationLaws.

Import JsNumber site3d Rotation.

(** Within the range of the engine's Euler angles the selector does find
    the short way. *)
Lemma minRotationAngle_in_range (start end_ : R) :
  - PI <= start <= PI -> - PI <= end_ <= PI ->
  Rabs (start - minRotationAngle start end_) <= PI.
Proof.
  intros Hs He. apply minRotationAngle_half_turn_iff.
  destruct (Rle_dec (Rabs (start - end_)) PI) as [H|H]; [now left|right].
  apply Rnot_le_gt in H.
  unfold Rabs in H; destruct (Rcase_abs (start - end_));
    [right | left]; lra.
Qed.

Lemma minRotationAngle_direction (start end_ : R) :
  same_direction (minRotationAngle start end_) end_.
Proof.
  destruct (minRotationAngle_congruent start end_) as [k ->].
  unfold TwoPI.
  replace (end_ + IZR k * (2 * PI)) with (end_ + 2 * IZR k * PI) by ring.
  split; [apply cos_period_Z | apply sin_period_Z].
Qed.


(** X8.  [_minRotation] treats the three axes independently.  When every
    angle of both rotations lies in [[-π, π]], every angle of the adjusted
    end rotation is within [π] of the start's, and it points the same way as
    the angle it replaces. *)
Theorem minRotation_per_axis (startRotation endRotation : Euler) :
  each (fun a => - PI <= a <= PI) startRotation ->
  each (fun a => - PI <= a <= PI) endRotation ->
  each2 (fun a b => Rabs (a - b) <= PI)
        startRotation (_minRotation startRotation endRotation)
  /\ each2 same_direction (_minRotation startRotation endRotation)
           endRotation.
Proof.
  intros (Hx & Hy & Hz) (Hx' & Hy' & Hz').
  split; repeat split; cbn [x y z _minRotation];
    first [now apply minRotationAngle_in_range
          | apply minRotationAngle_direction].
Qed.

Lemma minRotation_per_axis_witness :
  let s := new_Euler 3 0 (-3) in
  let e := new_Euler (-3) 1 3 in
  (each (fun a => - PI <= a <= PI) s /\ each (fun a => - PI <= a <= PI) e)
  /\ each2 (fun a b => Rabs (a - b) <= PI) s (_minRotation s e)
  /\ each2 same_direction (_minRotation s e) e.
Proof.
  pose proof PI_bounds as Hp.
  assert (Hs : each (fun a => - PI <= a <= PI) (new_Euler 3 0 (-3)))
    by (repeat split; cbn; lra).
  assert (He : each (fun a => - PI <= a <= PI) (new_Euler (-3) 1 3))
    by (repeat split; cbn; lra).
  split; [split; assumption|].
  exact (minRotation_per_axis (new_Euler 3 0 (-3)) (new_Euler (-3) 1 3)
                              Hs He).
Defined.


End RotationLaws.

(** ** Pointer events *)

Section PointerLaws.

Import Pointer.



End PointerLaws.

(** ** Further properties of [rotateCamera] *)

Section OrbitLaws.

Import site3d.

Context {E : three.Engine}.





(** The position after an orbit step, for every axis. *)
Lemma orbit_position (p1 : R) (opts : CameraRotateOptions)
    (camera : three.Object3D) :
  three.position (orbit p1 opts camera)
  = if String.eqb (axe opts) "y"
    then orbit_y_formula (target opts) (three.position camera) (toRad p1)
    else three.position camera.
Proof.
  destruct (String.eqb (axe opts) "y") eqn:Ha.
  - apply orbit_position_y. now apply String.eqb_eq.
  - apply orbit_position_other. now apply String.eqb_neq.
Qed.




(** X14.  [rotateCamera] never changes the height of the camera, whatever
    its arguments; called with three angles or with an array it changes
    neither the position nor the stored orbit options. *)
Theorem rotateCamera_keeps_height (args : RotateCameraArgs) (s : Site3d) :
  three.y (three.position (_camera (rotateCamera args s)))
  = three.y (three.position (_camera s))
  /\ match args with
     | Orbit _ _ => True
     | _ => three.position (_camera (rotateCamera args s))
            = three.position (_camera s)
            /\ _cameraRotateOptions (rotateCamera args s)
               = _cameraRotateOptions s
     end.
Proof.
  destruct args as [p1 p2 p3|[[a b] c]|p1 p2].
  - split; [reflexivity | split; reflexivity].
  - split; [reflexivity | split; reflexivity].
  - split; [|exact I]. cbn [rotateCamera _camera]. rewrite orbit_position.
    destruct (String.eqb _ "y"); reflexivity.
Qed.

(** X15.  With the stored [isLook] false an orbit step leaves the
    orientation alone (the engine is not called); if moreover the stored
    axis is not ['y'], the camera is left exactly as it was. *)
Theorem orbit_without_look (s : Site3d) (p1 : R) (p2 : option Options) :
  let opts := update_options p2 (_cameraRotateOptions s) in
  isLook opts = false ->
  three.orientation (_camera (rotateCamera (Orbit p1 p2) s))
  = three.orientation (_camera s)
  /\ (axe opts <> "y"%string ->
      _camera (rotateCamera (Orbit p1 p2) s) = _camera s).
Proof.
  intros opts Hl. split.
  - apply orbit_orientation_no_look. exact Hl.
  - intros Ha. cbn [rotateCamera _camera]. fold opts. unfold orbit.
    apply String.eqb_neq in Ha. rewrite Ha, Hl. reflexivity.
Qed.

End OrbitLaws.

Section OrbitLawsExamples.

Import site3d.

Lemma orbit_without_look_witness :
  let s := new_Site3d (E := three.recorder)
             (three.new_Object3D (three.new_Vector3 0 0 5) three.no_calls)
             (new_CameraRotateOptions (three.new_Vector3 0 0 0) "x" false) in
  isLook (update_options None (_cameraRotateOptions s)) = false
  /\ three.orientation (_camera (rotateCamera (Orbit 90 None) s))
     = three.no_calls
  /\ ("x"%string <> "y"%string ->
      _camera (rotateCamera (Orbit 90 None) s) = _camera s).
Proof.
  split; [reflexivity|].
  exact (orbit_without_look
           (new_Site3d (E := three.recorder)
              (three.new_Object3D (three.new_Vector3 0 0 5) three.no_calls)
              (new_CameraRotateOptions (three.new_Vector3 0 0 0) "x" false))
           90 None eq_refl).
Defined.

End OrbitLawsExamples.

(** ** The camera's position *)

Section CameraLaws.

Import JsNumber site3d Camera.

Context {E : three.Engine}.

Lemma eqb_refl (a : R) : eqb a a = true.
Proof. now apply eqb_true_iff. Qed.

(** X16.  Position round trip: after [cameraPos(p)] the camera reports [p]
    and [isCameraPos(p)] holds; [isCameraPos(q)] holds exactly when
    [getCameraPos()] is [q]; a second [cameraPos] overrides the first; the
    orientation is kept. *)
Theorem cameraPos_round_trip (p q : R * R * R) (s : Site3d) :
  getCameraPos (cameraPos p s) = p
  /\ isCameraPos p (cameraPos p s) = true
  /\ (isCameraPos q s = true <-> getCameraPos s = q)
  /\ cameraPos q (cameraPos p s) = cameraPos q s
  /\ three.orientation (_camera (cameraPos p s))
     = three.orientation (_camera s).
Proof.
  destruct p as [[p1 p2] p3], q as [[q1 q2] q3].
  split; [reflexivity|]. split; [|split; [|split; reflexivity]].
  - cbn. now rewrite !eqb_refl.
  - unfold isCameraPos, getCameraPos.
    rewrite !andb_true_iff, !eqb_true_iff. split.
    + intros [[-> ->] ->]. reflexivity.
    + intros H. injection H as -> -> ->. auto.
Qed.

End CameraLaws.

(** ** Position and scale of a model or light *)

Section TransformLaws.

Import Transform.

Lemma vector_eta (v : three.Vector3) :
  three.new_Vector3 (three.x v) (three.y v) (three.z v) = v.
Proof. now destruct v. Qed.



End TransformLaws.

(** ** Models, their registry and the load counters *)

Section ModelsLaws.

Import Models.

Lemma Map_get_delete_same {V : Type} (k : string) (m : Map V) :
  Map_get k (Map_delete k m) = None.
Proof.
  unfold Map_get, Map_delete. induction m as [|[k' v] m IH]; [reflexivity|].
  cbn. destruct (String.eqb k' k) eqn:Hk; cbn; [exact IH|].
  now rewrite Hk.
Qed.

Lemma Map_get_delete_other {V : Type} (k k' : string) (m : Map V) :
  k' <> k -> Map_get k' (Map_delete k m) = Map_get k' m.
Proof.
  intros Hne. unfold Map_get, Map_delete.
  induction m as [|[k0 v] m IH]; [reflexivity|].
  cbn. destruct (String.eqb k0 k) eqn:Hk; cbn.
  - apply String.eqb_eq in Hk. subst k0.
    apply not_eq_sym, String.eqb_neq in Hne. now rewrite Hne.
  - destruct (String.eqb k0 k'); [reflexivity | exact IH].
Qed.

Lemma Map_get_delete_Some {V : Type} (k k' : string) (m : Map V) (v : V) :
  Map_get k' (Map_delete k m) = Some v -> Map_get k' m = Some v.
Proof.
  destruct (String.eqb_spec k' k) as [->|Hne].
  - now rewrite Map_get_delete_same.
  - now rewrite Map_get_delete_other.
Qed.

Lemma Map_get_set_same {V : Type} (k : string) (v : V) (m : Map V) :
  Map_get k (Map_set k v m) = Some v.
Proof. unfold Map_get, Map_set. cbn. now rewrite String.eqb_refl. Qed.

Lemma Map_get_set_other {V : Type} (k k' : string) (v : V) (m : Map V) :
  k' <> k -> Map_get k' (Map_set k v m) = Map_get k' m.
Proof.
  intros Hne. unfold Map_set.
  rewrite <- (Map_get_delete_other k k' m Hne).
  unfold Map_get at 1. cbn.
  apply not_eq_sym, String.eqb_neq in Hne. now rewrite Hne.
Qed.

Lemma nth_error_fresh (l : list Model) (x : Model) :
  nth_error (l ++ [x]) (length l) = Some x.
Proof. rewrite nth_error_app2, Nat.sub_diag by lia. reflexivity. Qed.

Lemma nth_error_old (l : list Model) (x model : Model) (m : nat) :
  nth_error l m = Some model -> nth_error (l ++ [x]) m = Some model.
Proof.
  intros H. rewrite nth_error_app1; [exact H|].
  apply nth_error_Some. congruence.
Qed.

Lemma count_loaded_app (l : list Model) (x : Model) :
  count_loaded (l ++ [x])
  = (count_loaded l + if isLoaded x then 1 else 0)%nat.
Proof.
  unfold count_loaded. rewrite filter_app, length_app. cbn.
  now destruct (isLoaded x).
Qed.

Lemma count_loaded_le (l : list Model) : (count_loaded l <= length l)%nat.
Proof. apply filter_length_le. Qed.

Lemma mark_loaded_length (m : nat) (l : list Model) :
  length (mark_loaded m l) = length l.
Proof.
  revert m; induction l as [|x l IH]; intros [|m]; cbn; auto.
Qed.

Lemma mark_loaded_nth (m m' : nat) (l : list Model) (model : Model) :
  nth_error l m' = Some model ->
  nth_error (mark_loaded m l) m'
  = Some (if (m' =? m)%nat then new_Model (name model) true else model).
Proof.
  revert m m'; induction l as [|x l IH]; intros [|m] [|m'] H;
    cbn in *; try discriminate; try congruence.
  now apply IH.
Qed.

Lemma mark_loaded_count (m : nat) (l : list Model) (model : Model) :
  nth_error l m = Some model -> isLoaded model = false ->
  count_loaded (mark_loaded m l) = S (count_loaded l).
Proof.
  unfold count_loaded.
  revert m; induction l as [|x l IH]; intros [|m] H Hl;
    cbn in *; try discriminate.
  - injection H as ->. now rewrite Hl.
  - destruct (isLoaded x); cbn; now rewrite (IH m H Hl).
Qed.

(** A model waiting for its font leaves room below the count. *)
Lemma count_loaded_lt (m : nat) (l : list Model) (model : Model) :
  nth_error l m = Some model -> isLoaded model = false ->
  (count_loaded l < length l)%nat.
Proof.
  intros H Hl.
  pose proof (mark_loaded_count m l model H Hl) as Hc.
  pose proof (count_loaded_le (mark_loaded m l)) as Hle.
  rewrite mark_loaded_length in Hle. lia.
Qed.

Lemma report_of_ok (i : LoadInfo) :
  (countModelLoaded i <= S (countModel i))%nat ->
  (countModelPreload i <= countModel i)%nat ->
  report_ok (report_of i).
Proof.
  intros H1 H2. unfold report_ok, report_of. cbn.
  split; [exact H1|]. split; [exact H2|].
  rewrite andb_true_iff, negb_true_iff, Nat.eqb_neq, Nat.eqb_eq.
  reflexivity.
Qed.

Lemma _callLoad_reports (w : World) :
  reports (_callLoad w)
  = reports w ++ (if load w then [report_of (_loadInfo w)] else []).
Proof.
  unfold _callLoad. destruct (load w); [reflexivity|].
  now rewrite app_nil_r.
Qed.

Lemma _callLoad_rest (w : World) :
  _loadInfo (_callLoad w) = _loadInfo w /\ load (_callLoad w) = load w
  /\ heap (_callLoad w) = heap w /\ _models (_callLoad w) = _models w
  /\ _scene (_callLoad w) = _scene w.
Proof.
  unfold _callLoad. destruct (load w) eqn:H; repeat split; cbn; congruence.
Qed.

(** What each operation leaves in each field. *)
Lemma geometry_fields (n : string) (w : World) :
  let i := _loadInfo w in
  _loadInfo (geometry n w)
  = new_LoadInfo (S (countModel i)) (countModelPreload i)
                 (S (countModelLoaded i))
  /\ load (geometry n w) = load w
  /\ reports (geometry n w)
     = reports w
       ++ (if load w
           then [report_of (new_LoadInfo (countModel i) (countModelPreload i)
                                         (S (countModelLoaded i)))]
           else [])
  /\ heap (geometry n w) = heap w ++ [new_Model n true]
  /\ _models (geometry n w) = Map_set n (length (heap w)) (_models w)
  /\ _scene (geometry n w) = _scene w ++ [length (heap w)].
Proof.
  unfold geometry, _addModel, count_model, set_models.
  cbn [heap _loadInfo load reports _models _scene].
  rewrite nth_error_fresh. cbn [isLoaded].
  unfold _callLoad. cbn [heap _loadInfo load reports _models _scene].
  destruct (load w) eqn:Hl; cbn; rewrite ?Hl, ?app_nil_r;
    repeat split; reflexivity.
Qed.

Lemma text_fields (n : string) (w : World) :
  let i := _loadInfo w in
  _loadInfo (text n w)
  = new_LoadInfo (S (countModel i)) (countModelPreload i)
                 (countModelLoaded i)
  /\ load (text n w) = load w
  /\ reports (text n w) = reports w
  /\ heap (text n w) = heap w ++ [new_Model n false]
  /\ _models (text n w) = Map_set n (length (heap w)) (_models w)
  /\ _scene (text n w) = _scene w.
Proof. cbn. repeat split; reflexivity. Qed.

Lemma preload_fields (w : World) :
  let i := _loadInfo w in
  _loadInfo (preload w)
  = new_LoadInfo (countModel i) (countModel i) (countModelLoaded i)
  /\ load (preload w) = load w
  /\ reports (preload w)
     = reports w
       ++ (if load w
           then [report_of (new_LoadInfo (countModel i) (countModel i)
                                         (countModelLoaded i))]
           else [])
  /\ heap (preload w) = heap w
  /\ _models (preload w) = _models w
  /\ _scene (preload w) = _scene w.
Proof.
  unfold preload, _callLoad.
  cbn [heap _loadInfo load reports _models _scene].
  destruct (load w) eqn:Hl; cbn; rewrite ?Hl, ?app_nil_r;
    repeat split; reflexivity.
Qed.

Lemma font_loaded_fields (m : nat) (w w' : World) :
  font_loaded m w = Some w' ->
  let i := _loadInfo w in
  exists model,
    nth_error (heap w) m = Some model /\ isLoaded model = false
    /\ _loadInfo w'
       = new_LoadInfo (countModel i) (countModelPreload i)
                      (S (countModelLoaded i))
    /\ load w' = load w
    /\ reports w'
       = reports w
         ++ (if load w
             then [report_of (new_LoadInfo (countModel i)
                                (countModelPreload i)
                                (S (countModelLoaded i)))]
             else [])
    /\ heap w' = mark_loaded m (heap w)
    /\ _models w' = _models w
    /\ _scene w' = _scene w ++ [m].
Proof.
  intros H i. unfold font_loaded in H.
  destruct (nth_error (heap w) m) as [model|] eqn:Hn; [|discriminate].
  destruct (isLoaded model) eqn:Hm; [discriminate|].
  injection H as <-. exists model. split; [reflexivity|]. split; [exact Hm|].
  unfold _addModel. cbn [heap _loadInfo load reports _models _scene].
  rewrite (mark_loaded_nth m m (heap w) model Hn), Nat.eqb_refl.
  cbn [isLoaded]. unfold _callLoad.
  cbn [heap _loadInfo load reports _models _scene].
  destruct (load w) eqn:Hl; cbn; rewrite ?Hl, ?app_nil_r;
    repeat split; reflexivity.
Qed.

Lemma remove_fields (m : nat) (w w' : World) :
  remove m w = Some w' ->
  exists model,
    nth_error (heap w) m = Some model
    /\ _loadInfo w' = _loadInfo w /\ load w' = load w
    /\ reports w' = reports w /\ heap w' = heap w
    /\ _models w' = Map_delete (name model) (_models w)
    /\ _scene w'
       = if isLoaded model
         then filter (fun c => negb (c =? m)%nat) (_scene w)
         else _scene w.
Proof.
  unfold remove. intros H.
  destruct (nth_error (heap w) m) as [model|] eqn:Hn; [|discriminate].
  injection H as <-. exists model. repeat split; reflexivity.
Qed.

(** The bookkeeping is right at the start and stays right. *)
Lemma consistent_init (callback : bool) : consistent (init callback).
Proof.
  unfold consistent, init. cbn.
  repeat split; auto using NoDup_nil; try contradiction; try discriminate.
Qed.

Lemma NoDup_snoc (l : list nat) (m : nat) :
  NoDup l -> ~ In m l -> NoDup (l ++ [m]).
Proof.
  intros Hl Hm. apply NoDup_app; [exact Hl | |].
  - constructor; [intros [] | constructor].
  - intros a Ha [<-|[]]. contradiction.
Qed.

Lemma reports_snoc_ok (rs : list Report) (b : bool) (i : LoadInfo) :
  Forall report_ok rs ->
  (countModelLoaded i <= S (countModel i))%nat ->
  (countModelPreload i <= countModel i)%nat ->
  Forall report_ok (rs ++ (if b then [report_of i] else [])).
Proof.
  intros Hrs H1 H2. apply Forall_app. split; [exact Hrs|].
  destruct b; [|constructor].
  constructor; [now apply report_of_ok | constructor].
Qed.

Lemma no_callback_no_report (rs : list Report) (b : bool) (i : LoadInfo) :
  (b = false -> rs = []) ->
  b = false -> rs ++ (if b then [report_of i] else []) = [].
Proof. intros H Hb. rewrite Hb, (H Hb). reflexivity. Qed.

Lemma consistent_geometry (n : string) (w : World) :
  consistent w -> consistent (geometry n w).
Proof.
  intros (C1 & C2 & C3 & C4 & C5 & C6 & C7 & C8).
  destruct (geometry_fields n w) as (Hi & Hl & Hr & Hh & Hm & Hs).
  pose proof (count_loaded_le (heap w)) as Hle.
  unfold consistent. rewrite Hi, Hl, Hr, Hh, Hm, Hs.
  cbn [countModel countModelLoaded countModelPreload].
  split; [rewrite length_app; cbn; lia|].
  split; [rewrite count_loaded_app; cbn; lia|].
  split; [lia|].
  split.
  { apply NoDup_snoc; [exact C4|]. intros Hin.
    destruct (C5 _ Hin) as (model & Hn & _).
    assert (length (heap w) < length (heap w))%nat
      by (apply nth_error_Some; congruence).
    lia. }
  split.
  { intros m Hin. apply in_app_or in Hin. destruct Hin as [Hin|[<-|[]]].
    - destruct (C5 _ Hin) as (model & Hn & Hlo).
      exists model. split; [now apply nth_error_old | exact Hlo].
    - exists (new_Model n true). split; [apply nth_error_fresh | reflexivity]. }
  split.
  { intros n' m Hg. destruct (String.eqb_spec n' n) as [->|Hne].
    - rewrite Map_get_set_same in Hg. injection Hg as <-.
      exists (new_Model n true). split; [apply nth_error_fresh | reflexivity].
    - rewrite Map_get_set_other in Hg by exact Hne.
      destruct (C6 _ _ Hg) as (model & Hn & Hna).
      exists model. split; [now apply nth_error_old | exact Hna]. }
  split.
  { apply reports_snoc_ok; cbn; [exact C7 | lia | lia]. }
  now apply no_callback_no_report.
Qed.

Lemma consistent_text (n : string) (w : World) :
  consistent w -> consistent (text n w).
Proof.
  intros (C1 & C2 & C3 & C4 & C5 & C6 & C7 & C8).
  destruct (text_fields n w) as (Hi & Hl & Hr & Hh & Hm & Hs).
  unfold consistent. rewrite Hi, Hl, Hr, Hh, Hm, Hs.
  cbn [countModel countModelLoaded countModelPreload].
  split; [rewrite length_app; cbn; lia|].
  split; [rewrite count_loaded_app; cbn; lia|].
  split; [lia|]. split; [exact C4|].
  split.
  { intros m Hin. destruct (C5 _ Hin) as (model & Hn & Hlo).
    exists model. split; [now apply nth_error_old | exact Hlo]. }
  split; [|split; assumption].
  intros n' m Hg. destruct (String.eqb_spec n' n) as [->|Hne].
  - rewrite Map_get_set_same in Hg. injection Hg as <-.
    exists (new_Model n false). split; [apply nth_error_fresh | reflexivity].
  - rewrite Map_get_set_other in Hg by exact Hne.
    destruct (C6 _ _ Hg) as (model & Hn & Hna).
    exists model. split; [now apply nth_error_old | exact Hna].
Qed.

Lemma consistent_preload (w : World) : consistent w -> consistent (preload w).
Proof.
  intros (C1 & C2 & C3 & C4 & C5 & C6 & C7 & C8).
  destruct (preload_fields w) as (Hi & Hl & Hr & Hh & Hm & Hs).
  pose proof (count_loaded_le (heap w)) as Hle.
  unfold consistent. rewrite Hi, Hl, Hr, Hh, Hm, Hs.
  cbn [countModel countModelLoaded countModelPreload].
  repeat (split; [assumption || lia|]).
  split; [apply reports_snoc_ok; cbn; [exact C7 | lia | lia]|].
  now apply no_callback_no_report.
Qed.

Lemma consistent_font_loaded (m : nat) (w w' : World) :
  font_loaded m w = Some w' -> consistent w -> consistent w'.
Proof.
  intros H (C1 & C2 & C3 & C4 & C5 & C6 & C7 & C8).
  destruct (font_loaded_fields m w w' H)
    as (model & Hn & Hlo & Hi & Hl & Hr & Hh & Hm & Hs).
  pose proof (count_loaded_lt m (heap w) model Hn Hlo) as Hlt.
  unfold consistent. rewrite Hi, Hl, Hr, Hh, Hm, Hs.
  cbn [countModel countModelLoaded countModelPreload].
  split; [rewrite mark_loaded_length; exact C1|].
  split; [rewrite (mark_loaded_count m _ model Hn Hlo); lia|].
  split; [exact C3|].
  split.
  { apply NoDup_snoc; [exact C4|]. intros Hin.
    destruct (C5 _ Hin) as (model' & Hn' & Hlo'). congruence. }
  split.
  { intros m' Hin. apply in_app_or in Hin. destruct Hin as [Hin|[<-|[]]].
    - destruct (C5 _ Hin) as (model' & Hn' & Hlo').
      rewrite (mark_loaded_nth m m' _ model' Hn').
      destruct (m' =? m)%nat; eexists; split; try reflexivity; exact Hlo'.
    - rewrite (mark_loaded_nth m m _ model Hn), Nat.eqb_refl.
      eexists; split; reflexivity. }
  split.
  { intros n' m' Hg. destruct (C6 _ _ Hg) as (model' & Hn' & Hna).
    rewrite (mark_loaded_nth m m' _ model' Hn').
    destruct (m' =? m)%nat; eexists; split; try reflexivity; exact Hna. }
  split.
  { apply reports_snoc_ok; cbn; [exact C7 | lia | lia]. }
  now apply no_callback_no_report.
Qed.

Lemma consistent_remove (m : nat) (w w' : World) :
  remove m w = Some w' -> consistent w -> consistent w'.
Proof.
  intros H (C1 & C2 & C3 & C4 & C5 & C6 & C7 & C8).
  destruct (remove_fields m w w' H)
    as (model & Hn & Hi & Hl & Hr & Hh & Hm & Hs).
  unfold consistent. rewrite Hi, Hl, Hr, Hh, Hm, Hs.
  repeat (split; [assumption|]).
  split; [destruct (isLoaded model); [now apply NoDup_filter | exact C4]|].
  split.
  { intros m' Hin. apply C5.
    destruct (isLoaded model); [|exact Hin].
    now apply filter_In in Hin. }
  split; [|split; assumption].
  intros n' m' Hg. apply (C6 n' m'). now apply Map_get_delete_Some in Hg.
Qed.

Lemma consistent_step (e : Event) (w w' : World) :
  step e w = Some w' -> consistent w -> consistent w'.
Proof.
  destruct e as [n|n|m|m|]; cbn; intros H Hc.
  - injection H as <-. now apply consistent_geometry.
  - injection H as <-. now apply consistent_text.
  - now apply (consistent_font_loaded m w).
  - now apply (consistent_remove m w).
  - injection H as <-. now apply consistent_preload.
Qed.

Lemma consistent_run (es : list Event) (w w' : World) :
  run es w = Some w' -> consistent w -> consistent w'.
Proof.
  revert w; induction es as [|e es IH]; cbn; intros w H Hc.
  - now injection H as <-.
  - destruct (step e w) as [w1|] eqn:He; [|discriminate].
    apply (IH w1 H). now apply (consistent_step e w).
Qed.

Lemma reachable_consistent (w : World) : reachable w -> consistent w.
Proof.
  intros (callback & es & H).
  apply (consistent_run es (init callback) w H), consistent_init.
Qed.

(** Outside [preload], an operation keeps the preload count, never lowers
    the loaded count, and reports at most once, right after raising the
    loaded count by one. *)
Lemma step_report (e : Event) (w w' : World) :
  step e w = Some w' -> is_Preload e = false ->
  let i := _loadInfo w in
  countModelPreload (_loadInfo w') = countModelPreload i
  /\ exists new, reports w' = reports w ++ new
     /\ ((new = [] /\ (countModelLoaded i <= countModelLoaded (_loadInfo w'))%nat)
         \/ (exists c,
               new = [report_of (new_LoadInfo c (countModelPreload i)
                                              (S (countModelLoaded i)))]
               /\ countModelLoaded (_loadInfo w') = S (countModelLoaded i))).
Proof.
  intros H He i. subst i.
  destruct e as [n|n|m|m|]; cbn in H; try discriminate.
  - injection H as <-.
    destruct (geometry_fields n w) as (Hi & _ & Hr & _).
    rewrite Hi, Hr. split; [reflexivity|]. eexists; split; [reflexivity|].
    destruct (load w); [right; eexists; split; reflexivity|].
    left; split; [reflexivity | cbn; lia].
  - injection H as <-.
    destruct (text_fields n w) as (Hi & _ & Hr & _).
    rewrite Hi, Hr. split; [reflexivity|]. exists [].
    split; [now rewrite app_nil_r|]. left; split; [reflexivity | cbn; lia].
  - destruct (font_loaded_fields m w w' H) as (_ & _ & _ & Hi & _ & Hr & _).
    rewrite Hi, Hr. split; [reflexivity|]. eexists; split; [reflexivity|].
    destruct (load w); [right; eexists; split; reflexivity|].
    left; split; [reflexivity | cbn; lia].
  - destruct (remove_fields m w w' H) as (_ & _ & Hi & _ & Hr & _).
    rewrite Hi, Hr. split; [reflexivity|]. exists [].
    split; [now rewrite app_nil_r|]. left; split; [reflexivity | lia].
Qed.

(** Between two calls of [preload] at most one report is a completed one,
    and none when the preload count is zero or already reached. *)
Lemma run_completions (es : list Event) (w w' : World) :
  run es w = Some w' ->
  forallb (fun e => negb (is_Preload e)) es = true ->
  exists new, reports w' = reports w ++ new
    /\ (length (filter is_preload_completed new) <= 1)%nat
    /\ (countModelPreload (_loadInfo w) = 0%nat
        \/ (countModelPreload (_loadInfo w)
            <= countModelLoaded (_loadInfo w))%nat ->
        filter is_preload_completed new = []).
Proof.
  revert w; induction es as [|e es IH]; cbn; intros w H Hes.
  - injection H as <-. exists []. rewrite app_nil_r. cbn. auto.
  - destruct (step e w) as [w1|] eqn:He; [|discriminate].
    apply andb_true_iff in Hes. destruct Hes as [Hq Hes].
    apply negb_true_iff in Hq.
    destruct (step_report e w w1 He Hq) as (Hp & new1 & Hr1 & Hcase).
    destruct (IH w1 H Hes) as (new2 & Hr2 & Hle & Hnone).
    rewrite Hp in Hnone.
    exists (new1 ++ new2). rewrite Hr2, Hr1, app_assoc.
    split; [reflexivity|]. rewrite filter_app, length_app.
    destruct Hcase as [[-> Hl]|(c & -> & Hl)].
    + cbn. split; [exact Hle|].
      intros Hz. apply Hnone. lia.
    + cbn [filter is_preload_completed report_of app length
           countModelPreload countModelLoaded].
      destruct (Nat.eqb_spec (countModelPreload (_loadInfo w)) 0) as [Hz|Hz];
        cbn [negb andb].
      * cbn. split; [exact Hle | intros _; apply Hnone; now left].
      * destruct (Nat.eqb_spec (countModelPreload (_loadInfo w))
                               (S (countModelLoaded (_loadInfo w))))
          as [Heq|Hneq].
        -- rewrite Hnone by (right; lia). cbn. split; [lia|]. intros [?|?]; lia.
        -- cbn. split; [exact Hle|]. intros Hc. apply Hnone. lia.
Qed.

(** X19.  The counters are exact in every world a [site3d] can reach:
    [countModel] is the number of models ever constructed (removing a model
    never lowers it), [countModelLoaded] the number of those whose [OBJECT]
    is set; so between operations no more models are loaded than counted,
    and no more are expected by [preload] than counted. *)
Theorem load_counters_exact (w : World) :
  reachable w ->
  countModel (_loadInfo w) = length (heap w)
  /\ countModelLoaded (_loadInfo w) = count_loaded (heap w)
  /\ (countModelLoaded (_loadInfo w) <= countModel (_loadInfo w))%nat
  /\ (countModelPreload (_loadInfo w) <= countModel (_loadInfo w))%nat.
Proof.
  intros Hr.
  destruct (reachable_consistent w Hr) as (C1 & C2 & C3 & _).
  pose proof (count_loaded_le (heap w)).
  repeat split; try assumption. lia.
Qed.

Lemma load_counters_exact_witness :
  let w := preload (text "t" (geometry "a" (init true))) in
  reachable w
  /\ countModel (_loadInfo w) = length (heap w)
  /\ countModelLoaded (_loadInfo w) = count_loaded (heap w)
  /\ (countModelLoaded (_loadInfo w) <= countModel (_loadInfo w))%nat
  /\ (countModelPreload (_loadInfo w) <= countModel (_loadInfo w))%nat.
Proof.
  assert (Hr : reachable (preload (text "t" (geometry "a" (init true)))))
    by (exists true, [Geometry "a"; Text "t"; Preload]; reflexivity).
  split; [exact Hr|].
  exact (load_counters_exact _ Hr).
Defined.

(** X20.  Every report the [load] callback has received shows at most one
    more model loaded than counted and no more expected than counted, and
    says [is_preload_completed] exactly when the preload count is not zero
    and equals the loaded count; without a callback nothing is reported. *)
Theorem load_reports_sound (w : World) :
  reachable w ->
  Forall report_ok (reports w) /\ (load w = false -> reports w = []).
Proof.
  intros Hr.
  destruct (reachable_consistent w Hr) as (_ & _ & _ & _ & _ & _ & C7 & C8).
  split; assumption.
Qed.

Lemma load_reports_sound_witness :
  let w := geometry "b" (preload (text "t" (geometry "a" (init true)))) in
  reachable w
  /\ Forall report_ok (reports w) /\ (load w = false -> reports w = []).
Proof.
  assert (Hr : reachable
                 (geometry "b"
                    (preload (text "t" (geometry "a" (init true))))))
    by (exists true, [Geometry "a"; Text "t"; Preload; Geometry "b"];
        reflexivity).
  split; [exact Hr|].
  exact (load_reports_sound _ Hr).
Defined.

(** X21.  While a geometry model is being constructed the callback is told
    of the load before the model is counted: the report shows the loaded
    count already raised and [countModel] still one short of what it is once
    the constructor returns.  From the first model of a scene the callback
    thus hears of one loaded model out of none. *)
Theorem geometry_report_lags (n : string) (w : World) :
  load w = true ->
  exists r, reports (geometry n w) = reports w ++ [r]
    /\ r_countModelLoaded r = S (countModelLoaded (_loadInfo w))
    /\ r_countModelLoaded r = countModelLoaded (_loadInfo (geometry n w))
    /\ r_countModel r = countModel (_loadInfo w)
    /\ S (r_countModel r) = countModel (_loadInfo (geometry n w)).
Proof.
  intros Hl. destruct (geometry_fields n w) as (Hi & _ & Hr & _).
  rewrite Hl in Hr. rewrite Hi, Hr.
  eexists. split; [reflexivity|]. repeat split.
Qed.

Lemma geometry_report_lags_witness :
  load (init true) = true
  /\ exists r, reports (geometry "a" (init true)) = reports (init true) ++ [r]
       /\ r_countModelLoaded r = 1%nat
       /\ r_countModelLoaded r
          = countModelLoaded (_loadInfo (geometry "a" (init true)))
       /\ r_countModel r = 0%nat
       /\ S (r_countModel r)
          = countModel (_loadInfo (geometry "a" (init true))).
Proof.
  split; [reflexivity|].
  exact (geometry_report_lags "a" (init true) eq_refl).
Defined.

(** X22.  In every reachable world the scene holds no model twice and only
    models whose [OBJECT] is set, and [model(name)] only ever returns a
    model of that name. *)
Theorem scene_and_registry_sound (w : World) :
  reachable w ->
  NoDup (_scene w)
  /\ (forall m, In m (_scene w) ->
      exists mo, nth_error (heap w) m = Some mo /\ isLoaded mo = true)
  /\ (forall n m, model n w = Some m ->
      exists mo, nth_error (heap w) m = Some mo /\ name mo = n).
Proof.
  intros Hr.
  destruct (reachable_consistent w Hr) as (_ & _ & _ & C4 & C5 & C6 & _).
  repeat split; assumption.
Qed.

Lemma scene_and_registry_sound_witness :
  let w := text "t" (geometry "a" (geometry "a" (init false))) in
  reachable w
  /\ NoDup (_scene w)
  /\ (forall m, In m (_scene w) ->
      exists mo, nth_error (heap w) m = Some mo /\ isLoaded mo = true)
  /\ (forall n m, model n w = Some m ->
      exists mo, nth_error (heap w) m = Some mo /\ name mo = n).
Proof.
  assert (Hr : reachable (text "t" (geometry "a" (geometry "a" (init false)))))
    by (exists false, [Geometry "a"; Geometry "a"; Text "t"]; reflexivity).
  split; [exact Hr|].
  exact (scene_and_registry_sound _ Hr).
Defined.

(** X23.  Creating a model under a name already in use replaces the
    registry entry but leaves the older model in the scene; calling
    [remove()] on the older model then takes it out of the scene and deletes
    the entry of the name, which is the newer model's: the newer model stays
    in the scene and [model(name)] no longer finds it. *)
Theorem stale_handle_unregisters (n : string) (w : World) :
  let m1 := length (heap w) in
  let m2 := S m1 in
  let w2 := geometry n (geometry n w) in
  model n w2 = Some m2 /\ In m1 (_scene w2) /\ In m2 (_scene w2)
  /\ exists w3, remove m1 w2 = Some w3
       /\ model n w3 = None /\ In m2 (_scene w3) /\ ~ In m1 (_scene w3).
Proof.
  intros m1 m2 w2. subst m1 m2 w2.
  destruct (geometry_fields n w) as (_ & _ & _ & Hh1 & _ & Hs1).
  destruct (geometry_fields n (geometry n w)) as (_ & _ & _ & Hh2 & Hm2 & Hs2).
  assert (Hlen : length (heap (geometry n w)) = S (length (heap w)))
    by (rewrite Hh1, length_app; cbn; lia).
  rewrite Hlen in Hm2, Hs2. rewrite Hs1 in Hs2.
  assert (Hn : nth_error (heap (geometry n (geometry n w))) (length (heap w))
               = Some (new_Model n true)).
  { rewrite Hh2. apply nth_error_old. rewrite Hh1. apply nth_error_fresh. }
  split; [unfold model; rewrite Hm2; apply Map_get_set_same|].
  split; [rewrite Hs2; apply in_or_app; left; apply in_or_app; right; now left|].
  split; [rewrite Hs2; apply in_or_app; right; now left|].
  unfold remove. rewrite Hn. eexists. split; [reflexivity|].
  unfold model. cbn [_models _scene name isLoaded].
  split; [apply Map_get_delete_same|]. rewrite Hs2. split.
  - apply filter_In. split; [apply in_or_app; right; now left|].
    apply negb_true_iff, Nat.eqb_neq. lia.
  - intros Hin. apply filter_In in Hin. destruct Hin as [_ Hin].
    now rewrite Nat.eqb_refl in Hin.
Qed.

(** X24.  [remove()] on a text model whose font has not arrived does not
    cancel the load: when the font arrives the text is still added to the
    scene and counted as loaded, although [model(name)] no longer finds
    it. *)
Theorem removed_text_still_arrives (n : string) (w : World) :
  let m := length (heap w) in
  exists w2 w3,
    remove m (text n w) = Some w2 /\ model n w2 = None
    /\ font_loaded m w2 = Some w3
    /\ model n w3 = None /\ In m (_scene w3)
    /\ countModelLoaded (_loadInfo w3) = S (countModelLoaded (_loadInfo w)).
Proof.
  intros m. subst m.
  assert (Hn : nth_error (heap (text n w)) (length (heap w))
               = Some (new_Model n false)) by apply nth_error_fresh.
  unfold remove. rewrite Hn. cbn [isLoaded name].
  eexists. eexists. split; [reflexivity|].
  split; [apply Map_get_delete_same|].
  unfold font_loaded. cbn [heap]. rewrite Hn. cbn [isLoaded].
  split; [reflexivity|].
  unfold _addModel. cbn [heap _loadInfo load reports _models _scene].
  rewrite (mark_loaded_nth _ _ _ _ Hn), Nat.eqb_refl. cbn [isLoaded].
  destruct (_callLoad_rest
    (new_World
       (new_LoadInfo (countModel (_loadInfo (text n w)))
          (countModelPreload (_loadInfo (text n w)))
          (S (countModelLoaded (_loadInfo (text n w)))))
       (load (text n w)) (reports (text n w))
       (mark_loaded (length (heap w)) (heap (text n w)))
       (Map_delete n (_models (text n w)))
       (_scene (text n w) ++ [length (heap w)])))
    as (Hi & _ & _ & Hm & Hs).
  unfold model. rewrite Hi, Hm, Hs.
  cbn [_loadInfo _models _scene countModelLoaded].
  split; [apply Map_get_delete_same|].
  split; [apply in_or_app; right; now left | reflexivity].
Qed.

(** X25.  A [preload()] made before any model exists never completes: as
    long as the preload count is zero and [preload] is not called again, no
    report says [is_preload_completed], however many models load. *)
Theorem preload_of_nothing_never_completes (es : list Event)
    (w w' : World) :
  countModelPreload (_loadInfo w) = 0%nat ->
  forallb (fun e => negb (is_Preload e)) es = true ->
  run es w = Some w' ->
  exists new, reports w' = reports w ++ new
    /\ Forall (fun r => is_preload_completed r = false) new.
Proof.
  intros Hp Hes Hrun.
  destruct (run_completions es w w' Hrun Hes) as (new & Hr & _ & Hnone).
  exists new. split; [exact Hr|].
  specialize (Hnone (or_introl Hp)).
  clear Hr. induction new as [|r new IH]; [constructor|].
  cbn in Hnone. destruct (is_preload_completed r) eqn:Hc; [discriminate|].
  constructor; [exact Hc | exact (IH Hnone)].
Qed.

Lemma preload_of_nothing_never_completes_witness :
  let w := preload (init true) in
  let es := [Geometry "a"; Text "t"] in
  let w' := text "t" (geometry "a" w) in
  (countModelPreload (_loadInfo w) = 0%nat
   /\ forallb (fun e => negb (is_Preload e)) es = true
   /\ run es w = Some w')
  /\ exists new, reports w' = reports w ++ new
       /\ Forall (fun r => is_preload_completed r = false) new.
Proof.
  split; [repeat split; reflexivity|].
  exact (preload_of_nothing_never_completes
           [Geometry "a"; Text "t"] (preload (init true))
           (text "t" (geometry "a" (preload (init true))))
           eq_refl eq_refl eq_refl).
Defined.

(** X26.  Completion is reported at most once per [preload]: among the
    reports made between two calls of [preload], at most one says
    [is_preload_completed], and none once the loaded count has reached the
    preload count. *)
Theorem at_most_one_completion (es : list Event) (w w' : World) :
  forallb (fun e => negb (is_Preload e)) es = true ->
  run es w = Some w' ->
  exists new, reports w' = reports w ++ new
    /\ (length (filter is_preload_completed new) <= 1)%nat
    /\ ((countModelPreload (_loadInfo w)
         <= countModelLoaded (_loadInfo w))%nat ->
        filter is_preload_completed new = []).
Proof.
  intros Hes Hrun.
  destruct (run_completions es w w' Hrun Hes) as (new & Hr & Hle & Hnone).
  exists new. split; [exact Hr|]. split; [exact Hle|].
  intros H. apply Hnone. now right.
Qed.

Lemma at_most_one_completion_witness :
  let w := preload (text "t" (init true)) in
  let es := [Geometry "a"; Geometry "b"] in
  let w' := geometry "b" (geometry "a" w) in
  (forallb (fun e => negb (is_Preload e)) es = true /\ run es w = Some w')
  /\ exists new, reports w' = reports w ++ new
       /\ (length (filter is_preload_completed new) <= 1)%nat
       /\ ((countModelPreload (_loadInfo w)
            <= countModelLoaded (_loadInfo w))%nat ->
           filter is_preload_completed new = []).
Proof.
  split; [split; reflexivity|].
  exact (at_most_one_completion
           [Geometry "a"; Geometry "b"] (preload (text "t" (init true)))
           (geometry "b" (geometry "a" (preload (text "t" (init true)))))
           eq_refl eq_refl).
Defined.

End ModelsLaws.

(** ** Materials and fills *)

Section MaterialsLaws.

Import Materials.

Variable fresh : Kind -> Material.

Lemma Map_has_get {V : Type} (k : string) (m : Models.Map V) :
  Models.Map_has k m = true <-> Models.Map_get k m <> None.
Proof.
  unfold Models.Map_has, Models.Map_get.
  induction m as [|[k' v] m IH]; cbn; [split; congruence|].
  destruct (String.eqb k' k); cbn; [split; congruence | exact IH].
Qed.

Lemma Map_has_false {V : Type} (k : string) (m : Models.Map V) :
  Models.Map_get k m = None -> Models.Map_has k m = false.
Proof.
  intros H. destruct (Models.Map_has k m) eqn:Hh; [|reflexivity].
  apply Map_has_get in Hh. contradiction.
Qed.

Lemma update_nth_other (m m' : nat) (f : Material -> Material)
    (l : list Material) :
  m <> m' -> nth_error (update m' f l) m = nth_error l m.
Proof.
  revert m m'; induction l as [|x l IH]; intros [|m] [|m'] H; cbn; auto.
  congruence.
Qed.

Lemma update_nth_same (m : nat) (f : Material -> Material)
    (l : list Material) (x : Material) :
  nth_error l m = Some x -> nth_error (update m f l) m = Some (f x).
Proof.
  revert m; induction l as [|y l IH]; intros [|m] H; cbn in *;
    try discriminate; [congruence | auto].
Qed.

Lemma update_id (m : nat) (f : Material -> Material) (l : list Material) :
  (forall x, f x = x) -> update m f l = l.
Proof.
  intros Hf. revert m; induction l as [|y l IH]; intros [|m]; cbn;
    rewrite ?Hf, ?IH; reflexivity.
Qed.

Lemma update_length (m : nat) (f : Material -> Material)
    (l : list Material) : length (update m f l) = length l.
Proof. revert m; induction l as [|y l IH]; intros [|m]; cbn; auto. Qed.

Lemma nth_error_app_old (l : list Material) (x mat : Material) (m : nat) :
  nth_error l m = Some mat -> nth_error (l ++ [x]) m = Some mat.
Proof.
  intros H. rewrite nth_error_app1; [exact H|].
  apply nth_error_Some. congruence.
Qed.

(** A fill object with nothing but a value sets nothing. *)
Lemma set_options_only_value (v : option string) (mat : Material) :
  set_options (only_value v) mat = mat.
Proof. now destruct mat. Qed.

Lemma write_only_value (m : nat) (v : option string) (w : Store) :
  write m (set_options (only_value v)) w = w.
Proof.
  unfold write. rewrite update_id by apply set_options_only_value.
  now destruct w.
Qed.

(** What [_getMaterial] does to the material at [m] when it allocates or
    gives up: nothing. *)
Lemma _getMaterial_keeps (upd : option nat) (type : option string)
    (w : Store) (m : nat) (mat : Material) :
  nth_error (heap w) m = Some mat ->
  nth_error (heap (snd (_getMaterial fresh upd type w))) m = Some mat
  /\ _materials (snd (_getMaterial fresh upd type w)) = _materials w.
Proof.
  intros H. unfold _getMaterial, alloc.
  destruct upd, type as [t|]; cbn;
    repeat match goal with
           | |- context [String.eqb ?a ?b] => destruct (String.eqb a b); cbn
           end;
    split; auto using nth_error_app_old.
Qed.

(** With a type, [_getMaterial] never hands back the material it was
    given: it returns a new one or none. *)
Lemma _getMaterial_typed (m : nat) (t : string) (w : Store) :
  fst (_getMaterial fresh (Some m) (Some t) w) = None
  \/ fst (_getMaterial fresh (Some m) (Some t) w) = Some (length (heap w)).
Proof.
  unfold _getMaterial, alloc.
  repeat match goal with
         | |- context [String.eqb ?a ?b] => destruct (String.eqb a b); cbn
         end; auto.
Qed.

(** Writing to another material leaves this one alone. *)
Lemma write_keeps (m m' : nat) (f : Material -> Material) (w : Store)
    (mat : Material) :
  nth_error (heap w) m = Some mat -> m' <> m ->
  nth_error (heap (write m' f w)) m = Some mat
  /\ _materials (write m' f w) = _materials w.
Proof.
  intros H Hne. split; [|reflexivity].
  cbn. rewrite update_nth_other by congruence. exact H.
Qed.

Lemma _setMaterialOptions_keeps (r : option nat) (o : Options)
    (w w' : Store) (m : nat) (mat : Material) :
  nth_error (heap w) m = Some mat -> r <> Some m ->
  _setMaterialOptions r o w = Some w' ->
  nth_error (heap w') m = Some mat /\ _materials w' = _materials w.
Proof.
  intros H Hr Hs. unfold _setMaterialOptions in Hs.
  destruct r as [m'|].
  - assert (Hw : w' = write m' (set_options o) w) by congruence.
    rewrite Hw. apply write_keeps; [exact H | congruence].
  - destruct (touches o); [discriminate|].
    assert (Hw : w' = w) by congruence. rewrite Hw. auto.
Qed.

(** X27.  [fill(fill)] on a model reaches the model's material only when
    the fill names no type.  With a type (and a value, if any, that is not
    a name registered for this very material) the options land on another
    material, new or registered, and the model's material and the registry
    stay as they were; with neither type nor value they are set on the
    model's material. *)
Theorem fill_reaches_material (m : nat) (mat : Material) (fill : Fill)
    (w : Store) :
  nth_error (heap w) m = Some mat ->
  (f_type (fill_options fill) <> None ->
   (forall v, f_value (fill_options fill) = Some v ->
              Models.Map_get v (_materials w) <> Some (Some m)) ->
   forall w', _updateMaterial fresh m fill w = Some w' ->
              nth_error (heap w') m = Some mat
              /\ _materials w' = _materials w)
  /\ (f_type (fill_options fill) = None ->
      f_value (fill_options fill) = None ->
      _updateMaterial fresh m fill w
      = Some (write m (set_options (fill_options fill)) w)).
Proof.
  intros Hm.
  assert (Hlt : m <> length (heap w)).
  { assert (m < length (heap w))%nat by (apply nth_error_Some; congruence).
    lia. }
  split.
  - intros Ht Hv w'. unfold _updateMaterial, _getFilledMaterial.
    set (o := fill_options fill) in *.
    destruct (f_type o) as [t|] eqn:Hty; [clear Ht | congruence].
    assert (Hg : forall r w1, _getMaterial fresh (Some m) (Some t) w = (r, w1) ->
                 r <> Some m /\ nth_error (heap w1) m = Some mat
                 /\ _materials w1 = _materials w).
    { intros r w1 Hg.
      destruct (_getMaterial_keeps (Some m) (Some t) w m mat Hm) as [Hk Hr].
      rewrite Hg in Hk, Hr. cbn in Hk, Hr.
      destruct (_getMaterial_typed m t w) as [Hf|Hf];
        rewrite Hg in Hf; cbn in Hf; subst r;
        (split; [congruence | split; assumption]). }
    destruct (f_value o) as [v|] eqn:Hval.
    + specialize (Hv v eq_refl).
      destruct (Models.Map_has v (_materials w)).
      * destruct (Models.Map_get v (_materials w)) as [r|] eqn:Hget.
        -- destruct (_setMaterialOptions r o w) as [w1|] eqn:Hs;
             [|discriminate].
           intros [= <-].
           apply (_setMaterialOptions_keeps r o w w1 m mat Hm); [|exact Hs].
           congruence.
        -- destruct (_setMaterialOptions None o w) as [w1|] eqn:Hs;
             [|discriminate].
           intros [= <-].
           apply (_setMaterialOptions_keeps None o w w1 m mat Hm);
             [discriminate | exact Hs].
      * destruct (_getMaterial fresh (Some m) (Some t) w) as [r w1] eqn:Hgm.
        destruct (Hg r w1 eq_refl) as (Hr & Hk & Hreg).
        assert (Hfin : forall w2 : Store,
                  nth_error (heap w2) m = Some mat ->
                  _materials w2 = _materials w ->
                  match _setMaterialOptions r o w2 with
                  | Some w3 => Returned r w3
                  | None => Threw
                  end = Threw
                  \/ exists w3, match _setMaterialOptions r o w2 with
                                | Some w3 => Returned r w3
                                | None => Threw
                                end = Returned r w3
                       /\ nth_error (heap w3) m = Some mat
                       /\ _materials w3 = _materials w).
        { intros w2 Hk2 Hreg2.
          destruct (_setMaterialOptions r o w2) as [w3|] eqn:Hs;
            [right | now left].
          exists w3. split; [reflexivity|].
          destruct (_setMaterialOptions_keeps r o w2 w3 m mat Hk2 Hr Hs).
          split; congruence. }
        destruct (includes "#" v).
        { destruct r as [m'|]; [|discriminate].
          destruct (write_keeps m m' (set_color v) w1 mat Hk) as [Hk2 Hreg2];
            [congruence|].
          destruct (Hfin _ Hk2 (eq_trans Hreg2 Hreg)) as [->|(w3 & -> & H3)];
            [discriminate | now intros [= <-]]. }
        destruct (includes ".jpg" v || includes ".png" v).
        { destruct r as [m'|]; [|discriminate].
          destruct (write_keeps m m' (set_map v) w1 mat Hk) as [Hk2 Hreg2];
            [congruence|].
          destruct (Hfin _ Hk2 (eq_trans Hreg2 Hreg)) as [->|(w3 & -> & H3)];
            [discriminate | now intros [= <-]]. }
        destruct (Hfin _ Hk Hreg) as [->|(w3 & -> & H3)];
          [discriminate | now intros [= <-]].
    + destruct (_getMaterial fresh (Some m) (Some t) w) as [r w1] eqn:Hg'.
      destruct (Hg r w1 eq_refl) as (Hr & Hk & Hreg).
      destruct (_setMaterialOptions r o w1) as [w3|] eqn:Hs; [|discriminate].
      intros [= <-].
      destruct (_setMaterialOptions_keeps r o w1 w3 m mat Hk Hr Hs).
      split; congruence.
  - intros Ht Hv. unfold _updateMaterial, _getFilledMaterial.
    rewrite Hv, Ht. reflexivity.
Qed.

(** X28.  A registered fill is shared, not copied: once [addFill(name,
    fill)] has succeeded, every later use of the plain string [name] as a
    fill returns the very material registered (or [undefined], if that is
    what was registered) and changes nothing, whatever material was to be
    updated. *)
Theorem registered_fill_is_shared (n : string) (fill : Fill)
    (w w' : Store) :
  addFill fresh n fill w = Some w' ->
  exists r, Models.Map_get n (_materials w') = Some r
    /\ forall upd, _getFilledMaterial fresh (FString n) upd w'
                   = Returned r w'.
Proof.
  unfold addFill. intros H.
  destruct (_getFilledMaterial fresh fill None w) as [|r w1]; [discriminate|].
  injection H as <-. exists r.
  assert (Hget : Models.Map_get n (Models.Map_set n r (_materials w1))
                 = Some r) by apply Map_get_set_same.
  split; [exact Hget|]. intros upd.
  unfold _getFilledMaterial. cbn [fill_options only_value f_value _materials].
  assert (Hhas : Models.Map_has n (Models.Map_set n r (_materials w1)) = true)
    by (apply Map_has_get; rewrite Hget; discriminate).
  rewrite Hhas, Hget.
  destruct r as [m|]; cbn [_setMaterialOptions]; [|reflexivity].
  now rewrite write_only_value.
Qed.

(** X29.  A fill object with an unknown type and no value gets no material:
    the call returns [undefined] and leaves the store alone when the object
    sets no option, and throws as soon as it sets one. *)
Theorem unknown_type_gives_no_material (o : Options) (t : string)
    (upd : option nat) (w : Store) :
  f_type o = Some t ->
  t <> "physical"%string -> t <> "basic"%string ->
  t <> "lambert"%string -> t <> "phong"%string ->
  f_value o = None ->
  _getFilledMaterial fresh (FObject o) upd w
  = if touches o then Threw else Returned None w.
Proof.
  intros Ht H1 H2 H3 H4 Hv.
  apply String.eqb_neq in H1, H2, H3, H4.
  unfold _getFilledMaterial. cbn [fill_options]. rewrite Hv, Ht.
  unfold _getMaterial. rewrite H1, H2, H3, H4.
  destruct upd; cbn [_setMaterialOptions]; destruct (touches o); reflexivity.
Qed.

(** X30.  A string fill is looked at only for ['#'], ['.jpg'] and ['.png']:
    a string with none of them that is not a registered name (a colour name,
    say) has no effect, and gives what a fill object without a value
    gives. *)
Theorem plain_word_fill_is_ignored (v : string) (upd : option nat)
    (w : Store) :
  includes "#" v = false -> includes ".jpg" v = false ->
  includes ".png" v = false ->
  Models.Map_get v (_materials w) = None ->
  _getFilledMaterial fresh (FString v) upd w
  = _getFilledMaterial fresh (FObject (only_value None)) upd w.
Proof.
  intros H1 H2 H3 Hg. apply Map_has_false in Hg.
  unfold _getFilledMaterial.
  cbn [fill_options only_value f_value f_type]. rewrite Hg, H1, H2, H3.
  cbn [orb].
  destruct (_getMaterial fresh upd None w) as [[m|] w1];
    cbn [_setMaterialOptions]; [|reflexivity].
  now rewrite !write_only_value.
Qed.

End MaterialsLaws.

Section MaterialsExamples.

Import Materials.

(** A material with nothing set, for the examples. *)
Lemma fill_reaches_material_witness :
  let mat := new_Material None None NoEmissiveMap FrontSide None None None
                          None NormalBlending false 1 in
  let w := new_Store [mat] [] in
  let fill := FObject (new_Options None (Some "basic"%string) None None
                         (Some "#ff0000"%string) None None None None None
                         None None) in
  nth_error (heap w) 0 = Some mat
  /\ (f_type (fill_options fill) <> None ->
      (forall v, f_value (fill_options fill) = Some v ->
                 Models.Map_get v (_materials w) <> Some (Some 0%nat)) ->
      forall w', _updateMaterial (fun _ => mat) 0 fill w = Some w' ->
                 nth_error (heap w') 0 = Some mat
                 /\ _materials w' = _materials w)
  /\ (f_type (fill_options fill) = None ->
      f_value (fill_options fill) = None ->
      _updateMaterial (fun _ => mat) 0 fill w
      = Some (write 0 (set_options (fill_options fill)) w)).
Proof.
  split; [reflexivity|].
  exact (fill_reaches_material
           (fun _ => new_Material None None NoEmissiveMap FrontSide None None
                       None None NormalBlending false 1)
           0 _ _ (new_Store [_] []) eq_refl).
Defined.

Lemma registered_fill_is_shared_witness :
  let mat := new_Material None None NoEmissiveMap FrontSide None None None
                          None NormalBlending false 1 in
  let w := new_Store [] [] in
  let w' := new_Store [set_color "#ff0000" mat]
                      [("red"%string, Some 0%nat)] in
  addFill (fun _ => mat) "red" (FString "#ff0000") w = Some w'
  /\ exists r, Models.Map_get "red" (_materials w') = Some r
       /\ forall upd, _getFilledMaterial (fun _ => mat) (FString "red") upd w'
                      = Returned r w'.
Proof.
  assert (H : addFill
                (fun _ => new_Material None None NoEmissiveMap FrontSide None
                            None None None NormalBlending false 1)
                "red" (FString "#ff0000") (new_Store [] [])
              = Some (new_Store
                        [set_color "#ff0000"
                           (new_Material None None NoEmissiveMap FrontSide
                              None None None None NormalBlending false 1)]
                        [("red"%string, Some 0%nat)]))
    by reflexivity.
  split; [exact H|].
  exact (registered_fill_is_shared
           (fun _ => new_Material None None NoEmissiveMap FrontSide None None
                       None None NormalBlending false 1)
           "red" (FString "#ff0000") _ _ H).
Defined.

Lemma unknown_type_gives_no_material_witness :
  let mat := new_Material None None NoEmissiveMap FrontSide None None None
                          None NormalBlending false 1 in
  let o := new_Options None (Some "toon"%string) None None None None None
                       None None None None None in
  (f_type o = Some "toon"%string
   /\ "toon"%string <> "physical"%string /\ "toon"%string <> "basic"%string
   /\ "toon"%string <> "lambert"%string /\ "toon"%string <> "phong"%string
   /\ f_value o = None)
  /\ _getFilledMaterial (fun _ => mat) (FObject o) None (new_Store [] [])
     = if touches o then Threw else Returned None (new_Store [] []).
Proof.
  assert (H1 : "toon"%string <> "physical"%string) by discriminate.
  assert (H2 : "toon"%string <> "basic"%string) by discriminate.
  assert (H3 : "toon"%string <> "lambert"%string) by discriminate.
  assert (H4 : "toon"%string <> "phong"%string) by discriminate.
  split; [repeat split; assumption|].
  exact (unknown_type_gives_no_material
           (fun _ => new_Material None None NoEmissiveMap FrontSide None None
                       None None NormalBlending false 1)
           (new_Options None (Some "toon"%string) None None None None None
                        None None None None None)
           "toon" None (new_Store [] []) eq_refl H1 H2 H3 H4 eq_refl).
Defined.

Lemma plain_word_fill_is_ignored_witness :
  let mat := new_Material None None NoEmissiveMap FrontSide None None None
                          None NormalBlending false 1 in
  (includes "#" "red" = false /\ includes ".jpg" "red" = false
   /\ includes ".png" "red" = false
   /\ Models.Map_get "red" (_materials (new_Store [] [])) = None)
  /\ _getFilledMaterial (fun _ => mat) (FString "red") None (new_Store [] [])
     = _getFilledMaterial (fun _ => mat) (FObject (only_value None)) None
                          (new_Store [] []).
Proof.
  split; [repeat split; reflexivity|].
  exact (plain_word_fill_is_ignored
           (fun _ => new_Material None None NoEmissiveMap FrontSide None None
                       None None NormalBlending false 1)
           "red" None (new_Store [] []) eq_refl eq_refl eq_refl eq_refl).
Defined.

End MaterialsExamples.
